(** * zadig: step runner, output redaction, value-source sync and fetch-merge

    A shallow embedding of

    - [pkg/microservice/jobexecutor/core/service/step/step.go]
      ([RunSteps], [runStep], [handleCmdOutput], [maskSecret],
      [maskSecretEnvs]) and
    - [pkg/microservice/aslan/core/environment/service/renderset.go]
      ([fromGitRepo], [syncYamlFromVariableSet], [syncYamlFromGit],
      [SyncYamlFromSource], [GetMergedYamlContent]).

    Go strings and byte slices are [string]s (sequences of bytes); a Go
    [error] that may be nil is an [option]; a Go pair [(value, error)] is a
    sum.  What the code calls in other packages comes in as a parameter:
    a [Variable] of the section or a field of a record of collaborators.
    Effects are explicit: a function that acts on the outside takes the
    outside and returns it, together with the list of the calls it has
    made.  Lines written with [log] in [renderset.go] are left out. *)

From Stdlib Require Import Ascii String.
From stdpp Require Import gmap strings list sorting.

#[local] Set Warnings "-register-all".

(** ** The functions of Go's [strings] package that the code calls *)

Module GoStrings.

(** [strings.HasPrefix s pre]. *)
Fixpoint HasPrefix (s pre : string) {struct pre} : bool :=
  match pre with
  | EmptyString => true
  | String a pre' =>
      match s with
      | EmptyString => false
      | String b s' => if Ascii.eqb a b then HasPrefix s' pre' else false
      end
  end.

(** The scan shared by [Replace] and [Split]: walk [s] from the left,
    and when [old] starts at the current byte, emit [new] and step over
    the remaining [String.length old - 1] bytes of the occurrence
    ([skip] counts them), so that occurrences are found leftmost first
    and never overlap. *)
Fixpoint replace_from (old new : string) (skip : nat) (s : string) : string :=
  match s with
  | EmptyString => EmptyString
  | String c s' =>
      match skip with
      | S k => replace_from old new k s'
      | O =>
          if HasPrefix s old
          then new +:+ replace_from old new (String.length old - 1) s'
          else String c (replace_from old new 0 s')
      end
  end.

(** [strings.Replace s old new (-1)]: every non-overlapping instance of
    [old] replaced by [new].  With an empty [old] Go inserts [new] at
    every rune boundary; no caller in this development reaches that case
    (both guard their argument with [len(..) == 0]) and the model leaves
    [s] alone there. *)
Definition Replace (s old new : string) : string :=
  match old with
  | EmptyString => s
  | String _ _ => replace_from old new 0 s
  end.

Definition cons_head (c : ascii) (l : list string) : list string :=
  match l with
  | [] => [String c EmptyString]
  | h :: t => String c h :: t
  end.

Fixpoint split_from (sep : string) (skip : nat) (s : string) : list string :=
  match s with
  | EmptyString => [EmptyString]
  | String c s' =>
      match skip with
      | S k => split_from sep k s'
      | O =>
          if HasPrefix s sep
          then EmptyString :: split_from sep (String.length sep - 1) s'
          else cons_head c (split_from sep 0 s')
      end
  end.

(** [strings.Split s sep] for a non-empty separator: the pieces of [s]
    between the instances of [sep]; one piece more than there are
    instances.  (An empty separator explodes [s] into its runes in Go;
    the code only ever splits on the literal ["="] and on the line
    feed.) *)
Definition Split (s sep : string) : list string :=
  match sep with
  | EmptyString => [s]
  | String _ _ => split_from sep 0 s
  end.

(** [strings.Join elems sep]. *)
Fixpoint Join (elems : list string) (sep : string) : string :=
  match elems with
  | [] => EmptyString
  | [a] => a
  | a :: rest => a +:+ sep +:+ Join rest sep
  end.

(** [old] occurs somewhere in [s]. *)
Definition Occurs (old s : string) : Prop :=
  exists a b, s = a +:+ old +:+ b.

(** The only occurrence of [old] in [a ++ old] is the final one: in
    [a ++ old ++ b] the leftmost occurrence of [old] starts right after
    [a]. *)
Definition FirstAt (a old : string) : Prop :=
  forall x y, a +:+ old = x +:+ old +:+ y -> y = EmptyString.

(** [FirstAt], as a test. *)
Fixpoint FirstAtb (a old : string) : bool :=
  match a with
  | EmptyString => true
  | String _ a' => negb (HasPrefix (a +:+ old) old) && FirstAtb a' old
  end.

(** What "every occurrence of [old] is replaced by [new]" means for a
    left-to-right scan, written without reference to [Replace]: cut [s]
    at its leftmost occurrence of [old], put [new] there, and go on in
    what follows the occurrence. *)
Inductive ReplacedAll (old new : string) : string -> string -> Prop :=
| ReplacedAll_none s :
    ~ Occurs old s -> ReplacedAll old new s s
| ReplacedAll_occ a b b' :
    FirstAt a old ->
    ReplacedAll old new b b' ->
    ReplacedAll old new (a +:+ old +:+ b) (a +:+ new +:+ b').

End GoStrings.

(** ** SecretMasker: [maskSecret] and [maskSecretEnvs] *)

Module Masker.
Import GoStrings.

Definition secretEnvMask : string := "********".

(** One turn of the loop of [maskSecret]. *)
Definition maskSecret_body (out val : string) : string :=
  if Nat.eqb (String.length val) 0 then out
  else Replace out val "********".

Definition maskSecret (secrets : list string) (message : string) : string :=
  fold_left maskSecret_body secrets message.

(** One turn of the loop of [maskSecretEnvs]: the three [continue]s,
    then the replacement of [strings.Join(sl[1:], "=")]. *)
Definition maskSecretEnvs_body (out val : string) : string :=
  if Nat.eqb (String.length val) 0 then out
  else
    let sl := Split val "=" in
    if negb (Nat.eqb (length sl) 2) then out
    else if Nat.eqb (String.length (nth 0 sl "")) 0
            || Nat.eqb (String.length (nth 1 sl "")) 0
    then out
    else Replace out (Join (skipn 1 sl) "=") secretEnvMask.

Definition maskSecretEnvs (message : string) (secretEnvs : list string) : string :=
  fold_left maskSecretEnvs_body secretEnvs message.

End Masker.

(** ** OutputRedactor: [handleCmdOutput] *)

Module Redactor.
Import GoStrings Masker.

(** The line feed, the delimiter given to [ReadBytes]. *)
Definition LF : string := String "010"%char EmptyString.

(** How the stream ends: [io.EOF], or another read error. *)
Inductive ReadEnd (ExtErr : Type) : Type :=
| EOF
| ReadFailure (e : ExtErr).
Arguments EOF {ExtErr}.
Arguments ReadFailure {ExtErr} e.

(** The pipe: the bytes it delivers before its reads start to fail, and
    the error they fail with. *)
Record Pipe (ExtErr : Type) : Type := {
  content : string;
  ending : ReadEnd ExtErr
}.
Arguments content {ExtErr} _.
Arguments ending {ExtErr} _.

(** What the function does to the outside: text written to standard
    output, calls of [util.WriteFile] with their file name and data, and
    log entries. *)
Inductive Event (ExtErr : Type) : Type :=
| Printf (text : string)
| WriteFileCall (filename data : string) (perm : N)
| Warnf (format : string) (e : ExtErr)
| Errorf (format : string) (e : ExtErr).
Arguments Printf {ExtErr} text.
Arguments WriteFileCall {ExtErr} filename data perm.
Arguments Warnf {ExtErr} format e.
Arguments Errorf {ExtErr} format e.

Record State (ExtErr World : Type) : Type := {
  world : World;
  events : list (Event ExtErr)
}.
Arguments world {ExtErr World} _.
Arguments events {ExtErr World} _.

Section Model.
Context {ExtErr World : Type}.

(** [util.WriteFile(filename, data, perm)], of package [pkg/util]: it may
    change the file system and may fail. *)
Variable WriteFile : string -> string -> N -> World -> option ExtErr * World.

Definition emit (ev : Event ExtErr) (st : State ExtErr World) : State ExtErr World :=
  {| world := world st; events := events st ++ [ev] |}.

(** The successive results of [reader.ReadBytes('\n')] that come with a
    nil error: each piece of the content up to and including a line feed.
    What follows the last line feed is returned together with the error. *)
Definition readLines (content : string) : list string :=
  map (fun l => l +:+ LF) (removelast (Split content LF)).

(** The loop body after a successful read. *)
Definition handleLine (needPersistentLog : bool) (logFile : string)
    (secretEnvs : list string) (st : State ExtErr World) (lineBytes : string)
  : State ExtErr World :=
  let st1 := emit (Printf (maskSecretEnvs lineBytes secretEnvs)) st in
  if needPersistentLog then
    let '(err, w) := WriteFile logFile lineBytes 448%N (world st1) in
    let st2 := {| world := w;
                  events := events st1 ++ [WriteFileCall logFile lineBytes 448%N] |} in
    match err with
    | Some e => emit (Warnf "Failed to write file when processing cmd output: %s" e) st2
    | None => st2
    end
  else st1.

Definition handleCmdOutput (pipe : Pipe ExtErr) (needPersistentLog : bool)
    (logFile : string) (secretEnvs : list string) (st : State ExtErr World)
  : State ExtErr World :=
  let st' := fold_left (handleLine needPersistentLog logFile secretEnvs)
                       (readLines (content pipe)) st in
  match ending pipe with
  | EOF => st'
  | ReadFailure e =>
      emit (Errorf "Failed to read log when processing cmd output: %s" e) st'
  end.

End Model.

(** Modelled from the spec: [util.WriteFile], of package [pkg/util], whose
    source is not at hand.  The spec has the redactor "append" the line "to
    a log file": the data goes to the end of the named file, which is
    created when absent.  The file system is a map from names to contents,
    and this writer never fails. *)
Definition appendFile (filename data : string) (perm : N) (fs : gmap string string)
  : option string * gmap string string :=
  (None, <[filename := default "" (fs !! filename) +:+ data]> fs).

End Redactor.

(** ** StepRunner: [runStep] and [RunSteps] *)

Module Runner.

(** The executors [runStep] can hand a step to, one per [case]. *)
Inductive StepKind : Type :=
| Shell | Git | DockerBuild | ToolInstall | Archive | JunitReport
| Tararchive | SonarCheck.

(** [meta.Step], the fields the runner reads; [Payload] is the type of the
    per-type [Spec]. *)
Record Step (Payload : Type) : Type := {
  StepType : string;
  Spec : Payload;
  Onfailure : bool
}.
Arguments StepType {Payload} _.
Arguments Spec {Payload} _.
Arguments Onfailure {Payload} _.

(** The errors [runStep] returns: the one it makes itself with
    [fmt.Errorf], and those an executor hands back. *)
Inductive error (ExtErr : Type) : Type :=
| Errorf (msg : string)
| ExecutorError (e : ExtErr).
Arguments Errorf {ExtErr} msg.
Arguments ExecutorError {ExtErr} e.

(** [type Step interface { Run(ctx context.Context) error }].  The context
    carries nothing the runner uses and is left out. *)
Record StepInstance (ExtErr World : Type) : Type := {
  Run : World -> option ExtErr * World
}.
Arguments Run {ExtErr World} _ _.

(** The constructors of the step packages: spec, workspace, (paths,) envs,
    secretEnvs. *)
Record Executors (Payload ExtErr World : Type) : Type := {
  NewShellStep : Payload -> string -> string -> list string -> list string ->
                 World -> (StepInstance ExtErr World + ExtErr) * World;
  NewGitStep : Payload -> string -> list string -> list string ->
               World -> (StepInstance ExtErr World + ExtErr) * World;
  NewDockerBuildStep : Payload -> string -> list string -> list string ->
               World -> (StepInstance ExtErr World + ExtErr) * World;
  NewToolInstallStep : Payload -> string -> list string -> list string ->
               World -> (StepInstance ExtErr World + ExtErr) * World;
  NewArchiveStep : Payload -> string -> list string -> list string ->
               World -> (StepInstance ExtErr World + ExtErr) * World;
  NewJunitReportStep : Payload -> string -> list string -> list string ->
               World -> (StepInstance ExtErr World + ExtErr) * World;
  NewTararchiveStep : Payload -> string -> list string -> list string ->
               World -> (StepInstance ExtErr World + ExtErr) * World;
  NewSonarCheckStep : Payload -> string -> list string -> list string ->
               World -> (StepInstance ExtErr World + ExtErr) * World
}.
Arguments NewShellStep {Payload ExtErr World} _.
Arguments NewGitStep {Payload ExtErr World} _.
Arguments NewDockerBuildStep {Payload ExtErr World} _.
Arguments NewToolInstallStep {Payload ExtErr World} _.
Arguments NewArchiveStep {Payload ExtErr World} _.
Arguments NewJunitReportStep {Payload ExtErr World} _.
Arguments NewTararchiveStep {Payload ExtErr World} _.
Arguments NewSonarCheckStep {Payload ExtErr World} _.

(** The calls [runStep] makes, in the order it makes them: a constructor
    with the spec it was given, the [Run] of the instance, [log.Error]. *)
Inductive Call (Payload ExtErr : Type) : Type :=
| CallNew (k : StepKind) (spec : Payload)
| CallRun (k : StepKind)
| LogError (e : error ExtErr).
Arguments CallNew {Payload ExtErr} k spec.
Arguments CallRun {Payload ExtErr} k.
Arguments LogError {Payload ExtErr} e.

Record IO (Payload ExtErr World : Type) : Type := {
  world : World;
  calls : list (Call Payload ExtErr)
}.
Arguments world {Payload ExtErr World} _.
Arguments calls {Payload ExtErr World} _.

(** The two variables of the loop of [RunSteps], with the outside. *)
Record LoopState (Payload ExtErr World : Type) : Type := {
  hasFailed : bool;
  respErr : option (error ExtErr);
  io : IO Payload ExtErr World
}.
Arguments hasFailed {Payload ExtErr World} _.
Arguments respErr {Payload ExtErr World} _.
Arguments io {Payload ExtErr World} _.

Section Model.
Context {Payload ExtErr World : Type}.
Variable X : Executors Payload ExtErr World.

Definition record (c : Call Payload ExtErr) (st : IO Payload ExtErr World) : IO Payload ExtErr World :=
  {| world := world st; calls := calls st ++ [c] |}.

(** What every [case] of the switch does with its constructor, followed by
    the tail of [runStep]: construct, give up on a constructor error, else
    [Run], logging a [Run] error. *)
Definition dispatch (k : StepKind) (spec : Payload)
    (new : World -> (StepInstance ExtErr World + ExtErr) * World) (st : IO Payload ExtErr World)
  : option (error ExtErr) * IO Payload ExtErr World :=
  let '(r, w1) := new (world st) in
  let st1 := {| world := w1; calls := calls st ++ [CallNew k spec] |} in
  match r with
  | inr err => (Some (ExecutorError err), st1)
  | inl stepInstance =>
      let '(r2, w2) := Run stepInstance w1 in
      let st2 := {| world := w2; calls := calls st1 ++ [CallRun k] |} in
      match r2 with
      | Some err => (Some (ExecutorError err), record (LogError (ExecutorError err)) st2)
      | None => (None, st2)
      end
  end.

Definition runStep (step : Step Payload) (workspace paths : string)
    (envs secretEnvs : list string) (st : IO Payload ExtErr World) : option (error ExtErr) * IO Payload ExtErr World :=
  let ty := StepType step in
  if String.eqb ty "shell" then
    dispatch Shell (Spec step) (NewShellStep X (Spec step) workspace paths envs secretEnvs) st
  else if String.eqb ty "git" then
    dispatch Git (Spec step) (NewGitStep X (Spec step) workspace envs secretEnvs) st
  else if String.eqb ty "docker_build" then
    dispatch DockerBuild (Spec step) (NewDockerBuildStep X (Spec step) workspace envs secretEnvs) st
  else if String.eqb ty "tools" then
    dispatch ToolInstall (Spec step) (NewToolInstallStep X (Spec step) workspace envs secretEnvs) st
  else if String.eqb ty "archive" then
    dispatch Archive (Spec step) (NewArchiveStep X (Spec step) workspace envs secretEnvs) st
  else if String.eqb ty "junit_report" then
    dispatch JunitReport (Spec step) (NewJunitReportStep X (Spec step) workspace envs secretEnvs) st
  else if String.eqb ty "tar_archive" then
    dispatch Tararchive (Spec step) (NewTararchiveStep X (Spec step) workspace envs secretEnvs) st
  else if String.eqb ty "sonar_check" then
    dispatch SonarCheck (Spec step) (NewSonarCheckStep X (Spec step) workspace envs secretEnvs) st
  else
    let err := Errorf ("step type: " +:+ ty +:+ " does not match any known type") in
    (Some err, record (LogError err) st).

(** The body of the [for] loop of [RunSteps]. *)
Definition RunSteps_body (workspace paths : string) (envs secretEnvs : list string)
    (ls : LoopState Payload ExtErr World) (stepInfo : Step Payload) : LoopState Payload ExtErr World :=
  if hasFailed ls && negb (Onfailure stepInfo) then ls
  else
    let '(err, st) := runStep stepInfo workspace paths envs secretEnvs (io ls) in
    match err with
    | Some e => {| hasFailed := true; respErr := Some e; io := st |}
    | None => {| hasFailed := hasFailed ls; respErr := respErr ls; io := st |}
    end.

Definition RunSteps_loop (workspace paths : string) (envs secretEnvs : list string)
    (steps : list (Step Payload)) (ls : LoopState Payload ExtErr World) : LoopState Payload ExtErr World :=
  fold_left (RunSteps_body workspace paths envs secretEnvs) steps ls.

Definition RunSteps_init (st : IO Payload ExtErr World) : LoopState Payload ExtErr World :=
  {| hasFailed := false; respErr := None; io := st |}.

Definition RunSteps (steps : list (Step Payload)) (workspace paths : string)
    (envs secretEnvs : list string) (st : IO Payload ExtErr World) : option (error ExtErr) * IO Payload ExtErr World :=
  let ls := RunSteps_loop workspace paths envs secretEnvs steps (RunSteps_init st) in
  (respErr ls, io ls).

End Model.

(** *** Vocabulary for the statements about a run *)

(** The step types of the data model, with the tag the switch of [runStep]
    has for each. *)
Definition kindOfType (ty : string) : option StepKind :=
  if String.eqb ty "shell" then Some Shell
  else if String.eqb ty "git" then Some Git
  else if String.eqb ty "docker_build" then Some DockerBuild
  else if String.eqb ty "tools" then Some ToolInstall
  else if String.eqb ty "archive" then Some Archive
  else if String.eqb ty "junit_report" then Some JunitReport
  else if String.eqb ty "tar_archive" then Some Tararchive
  else if String.eqb ty "sonar_check" then Some SonarCheck
  else None.

Definition stepTypes : list string :=
  ["shell"; "git"; "docker_build"; "tools"; "archive"; "junit_report";
   "tar_archive"; "sonar_check"].

Section Observations.
Context {Payload ExtErr World : Type}.
Variable X : Executors Payload ExtErr World.
Variables workspace paths : string.
Variables envs secretEnvs : list string.

(** The constructor that belongs to a kind of step. *)
Definition stepConstructor (k : StepKind) (spec : Payload)
  : World -> (StepInstance ExtErr World + ExtErr) * World :=
  match k with
  | Shell => NewShellStep X spec workspace paths envs secretEnvs
  | Git => NewGitStep X spec workspace envs secretEnvs
  | DockerBuild => NewDockerBuildStep X spec workspace envs secretEnvs
  | ToolInstall => NewToolInstallStep X spec workspace envs secretEnvs
  | Archive => NewArchiveStep X spec workspace envs secretEnvs
  | JunitReport => NewJunitReportStep X spec workspace envs secretEnvs
  | Tararchive => NewTararchiveStep X spec workspace envs secretEnvs
  | SonarCheck => NewSonarCheckStep X spec workspace envs secretEnvs
  end.

Variable st0 : IO Payload ExtErr World.

(** The loop variables when a run started in [st0] has gone through the
    steps [pre]. *)
Definition stateAfter (pre : list (Step Payload)) : LoopState Payload ExtErr World :=
  RunSteps_loop X workspace paths envs secretEnvs pre (RunSteps_init st0).

(** What [runStep] would do with [s] at that point. *)
Definition runStepAfter (pre : list (Step Payload)) (s : Step Payload)
  : option (error ExtErr) * IO Payload ExtErr World :=
  runStep X s workspace paths envs secretEnvs (io (stateAfter pre)).

(** In a run that goes through [pre] and then comes to [s], the step [s]
    is dispatched: what the run has done to the outside after [s] is what
    [runStep] on [s] makes of the outside as it was before [s]. *)
Definition Dispatched (pre : list (Step Payload)) (s : Step Payload) : Prop :=
  io (stateAfter (pre ++ [s])) = snd (runStepAfter pre s).

(** The step [s] is passed over: nothing is called, nothing changes. *)
Definition Skipped (pre : list (Step Payload)) (s : Step Payload) : Prop :=
  io (stateAfter (pre ++ [s])) = io (stateAfter pre).

(** The step [s], coming after [pre], is dispatched and fails with [e]. *)
Definition FailsAt (pre : list (Step Payload)) (s : Step Payload)
    (e : error ExtErr) : Prop :=
  Dispatched pre s /\ fst (runStepAfter pre s) = Some e.

(** Some step of [pre] was dispatched and failed. *)
Definition FailedBefore (pre : list (Step Payload)) : Prop :=
  exists p1 s p2 e, pre = p1 ++ s :: p2 /\ FailsAt p1 s e.

End Observations.

(** *** Executors to run the model on

    Specs and errors are strings and the outside is the list of the specs
    that were run.  A constructor turns down the spec ["bad spec"]; the
    [Run] of an instance fails on the spec ["exit 1"]. *)
Definition demoNew (spec : string) (w : list string)
  : (StepInstance string (list string) + string) * list string :=
  if String.eqb spec "bad spec" then (inr "cannot parse spec", w)
  else (inl {| Run := fun w' =>
                 (if String.eqb spec "exit 1" then Some "exit status 1" else None,
                  w' ++ [spec]) |}, w).

Definition demoExecutors : Executors string string (list string) :=
  {| NewShellStep := fun spec _ _ _ _ => demoNew spec;
     NewGitStep := fun spec _ _ _ => demoNew spec;
     NewDockerBuildStep := fun spec _ _ _ => demoNew spec;
     NewToolInstallStep := fun spec _ _ _ => demoNew spec;
     NewArchiveStep := fun spec _ _ _ => demoNew spec;
     NewJunitReportStep := fun spec _ _ _ => demoNew spec;
     NewTararchiveStep := fun spec _ _ _ => demoNew spec;
     NewSonarCheckStep := fun spec _ _ _ => demoNew spec |}.

Definition demoStart : IO string string (list string) :=
  {| world := []; calls := [] |}.

Definition stepA : Step string :=
  {| StepType := "shell"; Spec := "make"; Onfailure := false |}.
Definition stepB : Step string :=
  {| StepType := "shell"; Spec := "exit 1"; Onfailure := false |}.
Definition stepC : Step string :=
  {| StepType := "git"; Spec := "clone"; Onfailure := false |}.
Definition stepD : Step string :=
  {| StepType := "archive"; Spec := "upload logs"; Onfailure := true |}.

End Runner.

(** ** ValueSourceSyncer and ConcurrentFetchMerger: [renderset.go] *)

Module RenderSet.

(** [templatemodels.CustomYaml], the fields read here; [Detail] is the type
    of the untyped [SourceDetail]. *)
Record CustomYaml (Detail : Type) : Type := {
  Source : string;
  AutoSync : bool;
  SourceID : string;
  SourceDetail : Detail
}.
Arguments Source {Detail} _.
Arguments AutoSync {Detail} _.
Arguments SourceID {Detail} _.
Arguments SourceDetail {Detail} _.

Record VariableSet : Type := { VariableYaml : string }.

Record GitRepoConfig : Type := {
  GitCodehostID : Z;
  GitOwner : string;
  GitRepo : string;
  GitBranch : string;
  GitNamespace : string
}.

(** What [service.UnMarshalSourceDetail] returns; a nil [GitRepoConfig] is
    [None]. *)
Record CreateFromRepo : Type := {
  GitRepoConfig_ : option GitRepoConfig;
  LoadPath : string
}.

Record DownloadFromSourceArgs : Type := {
  ArgCodehostID : Z;
  ArgOwner : string;
  ArgNamespace : string;
  ArgRepo : string;
  ArgPath : string;
  ArgBranch : string;
  ArgRepoLink : string
}.

Record YamlContentRequestArg : Type := {
  CodehostID : Z;
  Owner : string;
  Repo : string;
  Namespace : string;
  Branch : string;
  RepoLink : string;
  ValuesPaths : string
}.

(** [systemconfig.CodeHost], the field read here. *)
Record CodeHost : Type := { Type_ : string }.

(** The errors the two functions return: one handed back by a collaborator
    as it is, [e.ErrListRepoDir.AddDesc], [errors.Wrapf] around a
    collaborator's error, and a [*multierror.Error] with its list. *)
Inductive error (ExtErr : Type) : Type :=
| External (e : ExtErr)
| ErrListRepoDir_AddDesc (desc : string)
| Wrapped (cause : ExtErr) (msg : string)
| MultiError (errs : list (error ExtErr)).
Arguments External {ExtErr} e.
Arguments ErrListRepoDir_AddDesc {ExtErr} desc.
Arguments Wrapped {ExtErr} cause msg.
Arguments MultiError {ExtErr} errs.

(** Everything the file calls in other packages, and the constants of
    package [setting].  Lookups and downloads are read as functions of
    their arguments: the outcome of one fetch does not depend on when the
    others run. *)
Record Collaborators (Detail ExtErr : Type) : Type := {
  SourceFromVariableSet : string;
  SourceFromGitRepo : string;
  SourceFromOther : string;
  (** [commonrepo.NewVariableSetColl().Find] on the option with this ID *)
  VariableSetFind : string -> VariableSet + ExtErr;
  (** [yamlutil.Equal] *)
  yamlEqual : string -> string -> bool * option ExtErr;
  UnMarshalSourceDetail : Detail -> CreateFromRepo + ExtErr;
  (** [fsservice.DownloadFileFromSource] *)
  DownloadFileFromSource : DownloadFromSourceArgs -> string + ExtErr;
  (** [systemconfig.New().GetCodeHost] *)
  GetCodeHost : Z -> CodeHost + ExtErr;
  (** [command.RunGitCmds] *)
  RunGitCmds : CodeHost -> string -> string -> string -> string -> string -> option ExtErr;
  (** [config.S3StoragePath()] *)
  S3StoragePath : string;
  (** [path.Join] of two elements *)
  pathJoin : string -> string -> string;
  (** [os.ReadFile] *)
  ReadFile : string -> string + ExtErr;
  (** [yamlutil.Merge] *)
  yamlMerge : list string -> string + ExtErr;
  (** [err.Error()] of a collaborator's error *)
  errorText : ExtErr -> string;
  (** [fmt.Sprintf(format)] with no operand, as [errors.Wrapf(err, format)]
      formats its message *)
  Sprintf0 : string -> string
}.
Arguments SourceFromVariableSet {Detail ExtErr} _.
Arguments SourceFromGitRepo {Detail ExtErr} _.
Arguments SourceFromOther {Detail ExtErr} _.
Arguments VariableSetFind {Detail ExtErr} _ _.
Arguments yamlEqual {Detail ExtErr} _ _ _.
Arguments UnMarshalSourceDetail {Detail ExtErr} _ _.
Arguments DownloadFileFromSource {Detail ExtErr} _ _.
Arguments GetCodeHost {Detail ExtErr} _ _.
Arguments RunGitCmds {Detail ExtErr} _ _ _ _ _ _ _.
Arguments S3StoragePath {Detail ExtErr} _.
Arguments pathJoin {Detail ExtErr} _ _ _.
Arguments ReadFile {Detail ExtErr} _ _.
Arguments yamlMerge {Detail ExtErr} _ _.
Arguments errorText {Detail ExtErr} _ _.
Arguments Sprintf0 {Detail ExtErr} _ _.

(** The two objects the fetch units share: the [sync.Map] from index to
    content, and the list inside [errorList], appended to under
    [errLock]. *)
Record Shared (ExtErr : Type) : Type := {
  fileContentMap : gmap nat string;
  errorList : list (error ExtErr)
}.
Arguments fileContentMap {ExtErr} _.
Arguments errorList {ExtErr} _.

Section Model.
Context {Detail ExtErr : Type}.
Variable C : Collaborators Detail ExtErr.

Definition fromGitRepo (source : string) : bool :=
  if String.eqb source "" then true
  else if String.eqb source (SourceFromGitRepo C) then true
  else false.

Definition syncYamlFromVariableSet (yamlData : CustomYaml Detail) (curValue : string)
  : bool * string * option (error ExtErr) :=
  if negb (String.eqb (Source yamlData) (SourceFromVariableSet C)) then (false, "", None)
  else
    match VariableSetFind C (SourceID yamlData) with
    | inr err => (false, "", Some (External err))
    | inl variableSet =>
        let '(equal, err) := yamlEqual C (VariableYaml variableSet) curValue in
        if bool_decide (is_Some err) || equal then (false, "", External <$> err)
        else (true, VariableYaml variableSet, None)
    end.

Definition syncYamlFromGit (yamlData : CustomYaml Detail) (curValue : string)
  : bool * string * option (error ExtErr) :=
  if negb (fromGitRepo (Source yamlData)) then (false, "", None)
  else
    match UnMarshalSourceDetail C (SourceDetail yamlData) with
    | inr err => (false, "", Some (External err))
    | inl sourceDetail =>
        match GitRepoConfig_ sourceDetail with
        | None => (false, "", None)
        | Some repoConfig =>
            match DownloadFileFromSource C
                    {| ArgCodehostID := GitCodehostID repoConfig;
                       ArgNamespace := GitNamespace repoConfig;
                       ArgOwner := GitOwner repoConfig;
                       ArgRepo := GitRepo repoConfig;
                       ArgPath := LoadPath sourceDetail;
                       ArgBranch := GitBranch repoConfig;
                       ArgRepoLink := "" |} with
            | inr err => (false, "", Some (External err))
            | inl valuesYAML =>
                let '(equal, err) := yamlEqual C valuesYAML curValue in
                if bool_decide (is_Some err) || equal then (false, "", External <$> err)
                else (true, valuesYAML, None)
            end
        end
    end.

(** A nil [yamlData] is [None]. *)
Definition SyncYamlFromSource (yamlData : option (CustomYaml Detail)) (curValue : string)
  : bool * string * option (error ExtErr) :=
  match yamlData with
  | None => (false, "", None)
  | Some yamlData =>
      if negb (AutoSync yamlData) then (false, "", None)
      else if String.eqb (Source yamlData) (SourceFromVariableSet C)
      then syncYamlFromVariableSet yamlData curValue
      else syncYamlFromGit yamlData curValue
  end.

(** [errors.Wrapf(err, format)]. *)
Definition Wrapf (err : ExtErr) (format : string) : error ExtErr :=
  Wrapped err (Sprintf0 C format).

(** [multierror.Append(errorList, err)] with an [err] that is not itself a
    multierror, and [errorList.ErrorOrNil()]. *)
Definition multierror_Append (errs : list (error ExtErr)) (err : error ExtErr)
  : list (error ExtErr) := errs ++ [err].

Definition ErrorOrNil (errs : list (error ExtErr)) : option (error ExtErr) :=
  match errs with
  | [] => None
  | _ :: _ => Some (MultiError errs)
  end.

(** The body of the goroutine started for one path: one fetch, then one
    write to a shared object (a [Store] into the map, or an append under
    the lock). *)
Definition fetchUnit (arg : YamlContentRequestArg) (index : nat) (filePath : string)
    (isOtherTypeRepo : bool) (sh : Shared ExtErr) : Shared ExtErr :=
  if negb isOtherTypeRepo then
    match DownloadFileFromSource C
            {| ArgCodehostID := CodehostID arg;
               ArgOwner := Owner arg;
               ArgNamespace := Namespace arg;
               ArgRepo := Repo arg;
               ArgPath := filePath;
               ArgBranch := Branch arg;
               ArgRepoLink := RepoLink arg |} with
    | inr errDownload =>
        {| fileContentMap := fileContentMap sh;
           errorList := multierror_Append (errorList sh)
             (Wrapf errDownload ("failed to download file from git, path " +:+ filePath)) |}
    | inl fileContent =>
        {| fileContentMap := <[index := fileContent]> (fileContentMap sh);
           errorList := errorList sh |}
    end
  else
    let base := pathJoin C (S3StoragePath C) (Repo arg) in
    let relativePath := pathJoin C base filePath in
    match ReadFile C relativePath with
    | inr errReadFile =>
        {| fileContentMap := fileContentMap sh;
           errorList := multierror_Append (errorList sh)
             (Wrapf errReadFile ("failed to read file from git repo, relative path " +:+ relativePath)) |}
    | inl fileContent =>
        {| fileContentMap := <[index := fileContent]> (fileContentMap sh);
           errorList := errorList sh |}
    end.

(** The units between the [go] statements and [wg.Wait()].  There is one
    unit per index of [paths]; [sched] lists the indices in the order in
    which the units get to write to the shared objects, which is for the
    scheduler to choose. *)
Definition runUnits (sched : list nat) (arg : YamlContentRequestArg)
    (paths : list string) (isOtherTypeRepo : bool) (sh : Shared ExtErr) : Shared ExtErr :=
  fold_left
    (fun sh index =>
       match paths !! index with
       | Some filePath => fetchUnit arg index filePath isOtherTypeRepo sh
       | None => sh
       end)
    sched sh.

(** The loop that fills [contentArr]: the indices in rising order, an
    index without content left out. *)
Definition contentArrOf (paths : list string) (m : gmap nat string) : list string :=
  omap (fun i => m !! i) (seq 0 (length paths)).

Definition GetMergedYamlContent (sched : list nat) (arg : YamlContentRequestArg)
    (paths : list string) : string * option (error ExtErr) :=
  match GetCodeHost C (CodehostID arg) with
  | inr err => ("", Some (ErrListRepoDir_AddDesc (errorText C err)))
  | inl detail =>
      let isOther := String.eqb (Type_ detail) (SourceFromOther C) in
      match (if isOther
             then RunGitCmds C detail (Namespace arg) (Namespace arg) (Repo arg)
                             (Branch arg) "origin"
             else None) with
      | Some err => ("", Some (ErrListRepoDir_AddDesc (errorText C err)))
      | None =>
          let sh := runUnits sched arg paths isOther
                      {| fileContentMap := ∅; errorList := [] |} in
          match ErrorOrNil (errorList sh) with
          | Some err => ("", Some err)
          | None =>
              let contentArr := contentArrOf paths (fileContentMap sh) in
              match yamlMerge C contentArr with
              | inr err => ("", Some (Wrapf err "failed to merge files"))
              | inl ret => (ret, None)
              end
          end
      end
  end.

(** *** Vocabulary for the statements about the fetches *)

(** The fetch the unit for [filePath] performs: a download, or a read
    below the storage path when the code host is of the other kind. *)
Definition fetchOf (arg : YamlContentRequestArg) (isOtherTypeRepo : bool)
    (filePath : string) : string + ExtErr :=
  if negb isOtherTypeRepo then
    DownloadFileFromSource C
      {| ArgCodehostID := CodehostID arg;
         ArgOwner := Owner arg;
         ArgNamespace := Namespace arg;
         ArgRepo := Repo arg;
         ArgPath := filePath;
         ArgBranch := Branch arg;
         ArgRepoLink := RepoLink arg |}
  else ReadFile C (pathJoin C (pathJoin C (S3StoragePath C) (Repo arg)) filePath).

(** The entry that reports the failure of that fetch: the cause, under a
    message made from the path. *)
Definition fetchErrorOf (arg : YamlContentRequestArg) (isOtherTypeRepo : bool)
    (filePath : string) (cause : ExtErr) : error ExtErr :=
  if negb isOtherTypeRepo then
    Wrapf cause ("failed to download file from git, path " +:+ filePath)
  else
    Wrapf cause ("failed to read file from git repo, relative path "
                 +:+ pathJoin C (pathJoin C (S3StoragePath C) (Repo arg)) filePath).

Definition failureOf (arg : YamlContentRequestArg) (isOtherTypeRepo : bool)
    (filePath : string) : option (error ExtErr) :=
  match fetchOf arg isOtherTypeRepo filePath with
  | inr cause => Some (fetchErrorOf arg isOtherTypeRepo filePath cause)
  | inl _ => None
  end.

Definition contentOf (arg : YamlContentRequestArg) (isOtherTypeRepo : bool)
    (filePath : string) : option string :=
  match fetchOf arg isOtherTypeRepo filePath with
  | inl fileContent => Some fileContent
  | inr _ => None
  end.

(** The failures of the paths, and the contents of those that were
    fetched, both in the order of [paths]. *)
Definition failuresOf (arg : YamlContentRequestArg) (isOtherTypeRepo : bool)
    (paths : list string) : list (error ExtErr) :=
  omap (failureOf arg isOtherTypeRepo) paths.

Definition contentsOf (arg : YamlContentRequestArg) (isOtherTypeRepo : bool)
    (paths : list string) : list string :=
  omap (contentOf arg isOtherTypeRepo) paths.

(** The code host is found and, where the code needs a local copy, the git
    commands succeed: the call gets to start its fetch units.  [isOther]
    is the flag the units are started with. *)
Definition ReachesFetches (arg : YamlContentRequestArg) (isOther : bool) : Prop :=
  exists detail,
    GetCodeHost C (CodehostID arg) = inl detail /\
    isOther = String.eqb (Type_ detail) (SourceFromOther C) /\
    (isOther = true ->
     RunGitCmds C detail (Namespace arg) (Namespace arg) (Repo arg) (Branch arg)
       "origin" = None).

(** What the call makes of the answer of [yamlutil.Merge]. *)
Definition mergeResult (merged : string + ExtErr) : string * option (error ExtErr) :=
  match merged with
  | inr err => ("", Some (Wrapf err "failed to merge files"))
  | inl ret => (ret, None)
  end.

End Model.

(** *** Collaborators to run the model on

    Errors are their messages.  The variable set [vs-1] holds [a: 1]; two
    documents compare equal when they are the same once blanks are
    dropped, and a document that starts with a tab does not parse; the
    file [b.yaml] cannot be downloaded; merging concatenates. *)
Fixpoint dropBlanks (s : string) : string :=
  match s with
  | EmptyString => EmptyString
  | String c s' =>
      if Ascii.eqb c " " then dropBlanks s' else String c (dropBlanks s')
  end.

Definition demoCollaborators : Collaborators (option GitRepoConfig) string :=
  {| SourceFromVariableSet := "variableSet";
     SourceFromGitRepo := "repo";
     SourceFromOther := "other";
     VariableSetFind := fun id =>
       if String.eqb id "vs-1" then inl {| VariableYaml := "a: 1" |}
       else inr "variable set not found";
     yamlEqual := fun a b =>
       if GoStrings.HasPrefix a (String "009" EmptyString)
       then (false, Some "yaml: found character that cannot start any token")
       else (String.eqb (dropBlanks a) (dropBlanks b), None);
     UnMarshalSourceDetail := fun d =>
       inl {| GitRepoConfig_ := d; LoadPath := "values.yaml" |};
     DownloadFileFromSource := fun args =>
       if String.eqb (ArgPath args) "b.yaml" then inr "connection reset"
       else inl ("# " +:+ ArgPath args);
     GetCodeHost := fun _ => inl {| Type_ := "gitlab" |};
     RunGitCmds := fun _ _ _ _ _ _ => None;
     S3StoragePath := "/data/s3";
     pathJoin := fun a b => a +:+ "/" +:+ b;
     ReadFile := fun p => inr ("open " +:+ p +:+ ": no such file or directory");
     yamlMerge := fun docs => inl (GoStrings.Join docs "; ");
     errorText := fun e => e;
     Sprintf0 := fun format => format |}.

Definition demoArg : YamlContentRequestArg :=
  {| CodehostID := 1; Owner := "koderover"; Repo := "charts"; Namespace := "koderover";
     Branch := "main"; RepoLink := ""; ValuesPaths := "" |}.

Definition demoRepo : GitRepoConfig :=
  {| GitCodehostID := 1; GitOwner := "koderover"; GitRepo := "charts";
     GitBranch := "main"; GitNamespace := "koderover" |}.

End RenderSet.

(** ** More of Go's [strings], and ways to look at a text *)

Module GoStringsMore.
Import GoStrings.

(** [strings.Contains s substr]. *)
Fixpoint Contains (s substr : string) : bool :=
  HasPrefix s substr
  || match s with
     | EmptyString => false
     | String _ s' => Contains s' substr
     end.

(** [s] is made of the byte [c] only. *)
Fixpoint OnlyByte (c : ascii) (s : string) : Prop :=
  match s with
  | EmptyString => True
  | String d s' => d = c /\ OnlyByte c s'
  end.

(** The byte [c] is one of the bytes of [cutset]. *)
Fixpoint inCutset (c : ascii) (cutset : string) : bool :=
  match cutset with
  | EmptyString => false
  | String d cutset' => Ascii.eqb c d || inCutset c cutset'
  end.

(** [strings.TrimLeft], [strings.TrimRight] and [strings.Trim] for a cutset
    of ASCII bytes, where a code point is a byte (the code trims with the
    cutset ["/"]). *)
Fixpoint TrimLeft (s cutset : string) : string :=
  match s with
  | EmptyString => EmptyString
  | String c s' => if inCutset c cutset then TrimLeft s' cutset else s
  end.

Fixpoint TrimRight (s cutset : string) : string :=
  match s with
  | EmptyString => EmptyString
  | String c s' =>
      match TrimRight s' cutset with
      | EmptyString => if inCutset c cutset then EmptyString else String c EmptyString
      | String d t => String c (String d t)
      end
  end.

Definition Trim (s cutset : string) : string :=
  TrimLeft (TrimRight s cutset) cutset.

End GoStringsMore.

(** ** Vocabulary for the statements about masking *)

Module MaskerVocabulary.
Import GoStrings.

(** [v] is the value of the entry [val]: [val] splits at ["="] into
    exactly two non-empty parts, of which [v] is the second. *)
Definition SecretValue (val v : string) : Prop :=
  exists k, Split val "=" = [k; v] /\ k <> "" /\ v <> "".

(** The value of an entry, computed: [None] for an entry that is not
    well-formed. *)
Definition valueOf (val : string) : option string :=
  match Split val "=" with
  | [k; v] =>
      if Nat.eqb (String.length k) 0 || Nat.eqb (String.length v) 0 then None
      else Some v
  | _ => None
  end.

End MaskerVocabulary.

(** ** Vocabulary for the statements about the redactor *)

Module RedactorVocabulary.
Import Redactor.

(** The texts written to standard output, in the order of writing. *)
Definition printed {ExtErr : Type} (evs : list (Event ExtErr)) : list string :=
  omap (fun ev => match ev with Printf text => Some text | _ => None end) evs.

(** The file names and data [util.WriteFile] was called with, in the order
    of the calls. *)
Definition written {ExtErr : Type} (evs : list (Event ExtErr))
  : list (string * string) :=
  omap (fun ev => match ev with
                  | WriteFileCall filename data _ => Some (filename, data)
                  | _ => None
                  end) evs.

(** The strings of a list, one after the other. *)
Definition concatAll (l : list string) : string :=
  fold_right String.append EmptyString l.

End RedactorVocabulary.

(** ** More vocabulary for the statements about a run *)

Module RunnerVocabulary.
Import Runner.

(** The constructors called, with the specs they were given, in the order
    of the calls. *)
Definition constructed {Payload ExtErr : Type} (cs : list (Call Payload ExtErr))
  : list (StepKind * Payload) :=
  omap (fun c => match c with CallNew k spec => Some (k, spec) | _ => None end) cs.

(** The kind and the spec of a step whose type the switch knows. *)
Definition kindAndSpec {Payload : Type} (s : Step Payload)
  : option (StepKind * Payload) :=
  match kindOfType (StepType s) with
  | Some k => Some (k, Spec s)
  | None => None
  end.

End RunnerVocabulary.

(** ** [GetDefaultValues], the other entry point of [renderset.go] *)

Module DefaultValues.
Import RenderSet.

(** The product record, its render reference, the option given to
    [FindRenderSet], and the render set: the fields read here. *)
Record RenderInfo : Type := { RenderName : string; RenderRevision : Z }.

Record Product : Type := {
  ProductEnvName : string;
  Render : option RenderInfo
}.

Record RenderSetFindOption : Type := {
  OptName : string;
  OptRevision : Z;
  OptProductTmpl : string;
  OptEnvName : string
}.

Record RenderSetObj (Detail : Type) : Type := {
  DefaultValues : string;
  YamlData : option (CustomYaml Detail)
}.
Arguments DefaultValues {Detail} _.
Arguments YamlData {Detail} _.

Record DefaultValuesResp (Detail : Type) : Type := {
  DefaultVariable : string;
  RespYamlData : option (CustomYaml Detail)
}.
Arguments DefaultVariable {Detail} _.
Arguments RespYamlData {Detail} _.

(** The errors [GetDefaultValues] returns: made with [fmt.Errorf], or
    handed on. *)
Inductive error (ExtErr : Type) : Type :=
| Errorf (msg : string)
| External (e : ExtErr).
Arguments Errorf {ExtErr} msg.
Arguments External {ExtErr} e.

Record Collaborators (Detail ExtErr : Type) : Type := {
  (** [commonrepo.NewProductColl().Find] on the options Name, EnvName *)
  ProductFind : string -> string -> Product + ExtErr;
  (** [err == mongo.ErrNoDocuments] *)
  isErrNoDocuments : ExtErr -> bool;
  (** [commonrepo.NewRenderSetColl().FindRenderSet]: the render set when
      it exists, [None] when it does not, or an error *)
  FindRenderSet : RenderSetFindOption -> option (RenderSetObj Detail) + ExtErr;
  (** [service.FillGitNamespace], which writes into the [YamlData] it is
      given and may fail: what it leaves in the [YamlData], and its error *)
  FillGitNamespace : option (CustomYaml Detail) ->
                     option (CustomYaml Detail) * option ExtErr
}.
Arguments ProductFind {Detail ExtErr} _ _ _.
Arguments isErrNoDocuments {Detail ExtErr} _ _.
Arguments FindRenderSet {Detail ExtErr} _ _.
Arguments FillGitNamespace {Detail ExtErr} _ _.

Section Model.
Context {Detail ExtErr : Type}.
Variable C : Collaborators Detail ExtErr.

(** The pair [(response, error)]; a nil response is [None]. *)
Definition GetDefaultValues (productName envName : string)
  : option (DefaultValuesResp Detail) * option (error ExtErr) :=
  let ret := {| DefaultVariable := ""; RespYamlData := None |} in
  match ProductFind C productName envName with
  | inr err =>
      if isErrNoDocuments C err then (Some ret, None)
      else (None, Some (Errorf ("failed to query product info, productName "
                                +:+ productName +:+ " envName " +:+ envName)))
  | inl productInfo =>
      match Render productInfo with
      | None => (None, Some (Errorf "invalid product, nil render data"))
      | Some render =>
          let opt := {| OptName := RenderName render;
                        OptRevision := RenderRevision render;
                        OptProductTmpl := productName;
                        OptEnvName := ProductEnvName productInfo |} in
          match FindRenderSet C opt with
          | inr err => (None, Some (External err))
          | inl None => (Some ret, None)
          | inl (Some rendersetObj) =>
              let '(yamlData, _) := FillGitNamespace C (YamlData rendersetObj) in
              (Some {| DefaultVariable := DefaultValues rendersetObj;
                       RespYamlData := yamlData |}, None)
          end
      end
  end.

End Model.

(** *** Collaborators to run the model on: the project [zadig] has a
    render set, and filling in the git namespace fails. *)
Definition demoValues : Collaborators unit string :=
  {| ProductFind := fun name env =>
       if String.eqb name "zadig"
       then inl {| ProductEnvName := env;
                   Render := Some {| RenderName := "zadig-env-dev";
                                     RenderRevision := 3 |} |}
       else inr "mongo: no documents in result";
     isErrNoDocuments := fun e => String.eqb e "mongo: no documents in result";
     FindRenderSet := fun opt =>
       inl (Some {| DefaultValues := "replicas: 2"; YamlData := None |});
     FillGitNamespace := fun y => (y, Some "code host not found") |}.

End DefaultValues.

(** ** The dashboard service

    The third source file, of package [service]: [intersect],
    [generateOPAInput], [CreateOrUpdateDashboardConfiguration],
    [GetDashboardConfiguration], [generateDefaultDashboardConfig] and
    [GetMyWorkflow]. *)

Module Dashboard.
Import GoStrings GoStringsMore.

Definition CardNameRunningWorkflow : string := "运行中的工作流".
Definition CardTypeRunningWorkflow : string := "running_workflow".
Definition CardTypeMyWorkflow : string := "my_workflow".

(** *** [sets.String] of [k8s.io/apimachinery]: a set of strings, and its
    [List], which is sorted *)

Definition NewString (items : list string) : gset string := list_to_set items.

Definition Intersection (s1 s2 : gset string) : gset string := s1 ∩ s2.

Definition List (s : gset string) : list string :=
  merge_sort String.le (elements s).

(** A nil result is the empty list. *)
Definition intersect (s : list (list string)) : list string :=
  match s with
  | [] => []
  | s0 :: rest =>
      List (fold_left (fun tmp v => Intersection (NewString v) tmp) rest (NewString s0))
  end.

(** *** [generateOPAInput] *)

(** [opa.Input], flattened: the headers and the method of the request,
    and the parsed path. *)
Record OPAInput : Type := {
  Headers : gmap string string;
  Method : string;
  ParsedPath : list string
}.

Section OPA.
Context {Header : Type}.
(** [header.Get], [strings.ToLower], and [setting.AuthorizationHeader]. *)
Variable HeaderGet : Header -> string -> string.
Variable ToLower : string -> string.
Variable AuthorizationHeader : string.

Definition generateOPAInput (header : Header) (method endpoint : string) : OPAInput :=
  let authorization := HeaderGet header (ToLower AuthorizationHeader) in
  let headers : gmap string string := ∅ in
  let parsedPath := Split (Trim endpoint "/") "/" in
  let headers := <[ToLower AuthorizationHeader := authorization]> headers in
  {| Headers := headers; Method := method; ParsedPath := parsedPath |}.

End OPA.

(** *** The dashboard configuration *)

(** [DashBoardCardConfig] of the service and [commonmodels.CardConfig] of
    the store; [Cfg] is the type of the untyped [Config], nil when
    [None]. *)
Record DashBoardCardConfig (Cfg : Type) : Type := {
  ID : string;
  Name : string;
  Type_ : string;
  Config : option Cfg
}.
Arguments ID {Cfg} _.
Arguments Name {Cfg} _.
Arguments Type_ {Cfg} _.
Arguments Config {Cfg} _.

Record CardConfig (Cfg : Type) : Type := {
  CardID : string;
  CardName : string;
  CardType : string;
  CardConfig_ : option Cfg
}.
Arguments CardID {Cfg} _.
Arguments CardName {Cfg} _.
Arguments CardType {Cfg} _.
Arguments CardConfig_ {Cfg} _.

Record DashBoardConfig (Cfg : Type) : Type := {
  Cards : list (DashBoardCardConfig Cfg)
}.
Arguments Cards {Cfg} _.

Record DashboardConfigModel (Cfg : Type) : Type := {
  ModelCards : list (CardConfig Cfg);
  UserID : string;
  UserName : string
}.
Arguments ModelCards {Cfg} _.
Arguments UserID {Cfg} _.
Arguments UserName {Cfg} _.

(** [workflow.Workflow] as [ListAllAvailableWorkflows] returns it, an item
    of [MyWorkflowCardConfig.WorkflowList], and [WorkflowResponse]: the
    fields read or set here. *)
Record Workflow : Type := {
  WfName : string;
  WfProjectName : string;
  WfDisplayName : string;
  WfWorkflowType : string
}.

Record WorkflowConfigItem : Type := {
  ItemProject : string;
  ItemName : string
}.

Record WorkflowResponse : Type := {
  RespName : string;
  RespProject : string;
  RespCreator : string;
  RespStartTime : Z;
  RespStatus : string;
  RespDisplayName : string;
  RespType : string
}.

Record Collaborators (Cfg ExtErr Store Header : Type) : Type := {
  (** [commonrepo.NewDashboardConfigColl().CreateOrUpdate] *)
  CreateOrUpdate : DashboardConfigModel Cfg -> Store -> option ExtErr * Store;
  (** [commonrepo.NewDashboardConfigColl().GetByUser] *)
  GetByUser : string -> string -> Store -> DashboardConfigModel Cfg + ExtErr;
  (** [err != mongo.ErrNoDocuments], negated *)
  isErrNoDocuments : ExtErr -> bool;
  (** [opa.NewDefault().Evaluate] of a query on an input: the [Result] it
      fills in *)
  Evaluate : string -> OPAInput -> list string + ExtErr;
  (** [workflow.ListAllAvailableWorkflows] *)
  ListAllAvailableWorkflows : list string -> list Workflow + ExtErr;
  (** [commonmodels.IToi] into a [MyWorkflowCardConfig]: its
      [WorkflowList] *)
  IToi : Cfg -> list WorkflowConfigItem + ExtErr;
  (** [workflow.GetLatestTaskInfo]: start time, creator, status *)
  GetLatestTaskInfo : Workflow -> Z * string * string;
  HeaderGet : Header -> string -> string;
  ToLower : string -> string;
  AuthorizationHeader : string
}.
Arguments CreateOrUpdate {Cfg ExtErr Store Header} _ _ _.
Arguments GetByUser {Cfg ExtErr Store Header} _ _ _ _.
Arguments isErrNoDocuments {Cfg ExtErr Store Header} _ _.
Arguments Evaluate {Cfg ExtErr Store Header} _ _ _.
Arguments ListAllAvailableWorkflows {Cfg ExtErr Store Header} _ _.
Arguments IToi {Cfg ExtErr Store Header} _ _.
Arguments GetLatestTaskInfo {Cfg ExtErr Store Header} _ _.
Arguments HeaderGet {Cfg ExtErr Store Header} _ _ _.
Arguments ToLower {Cfg ExtErr Store Header} _ _.
Arguments AuthorizationHeader {Cfg ExtErr Store Header} _.

Section Model.
Context {Cfg ExtErr Store Header : Type}.
Variable C : Collaborators Cfg ExtErr Store Header.

Definition CreateOrUpdateDashboardConfiguration (username userID : string)
    (config : DashBoardConfig Cfg) (st : Store) : option ExtErr * Store :=
  let cardConfig :=
    map (fun cfg => {| CardID := ID cfg; CardName := Name cfg;
                       CardType := Type_ cfg; CardConfig_ := Config cfg |})
        (Cards config) in
  let dashboardConfig :=
    {| ModelCards := cardConfig; UserID := userID; UserName := username |} in
  CreateOrUpdate C dashboardConfig st.

Definition generateDefaultDashboardConfig : DashBoardConfig Cfg :=
  {| Cards := [ {| ID := ""; Name := CardNameRunningWorkflow;
                   Type_ := CardTypeRunningWorkflow; Config := None |} ] |}.

Definition GetDashboardConfiguration (username userID : string) (st : Store)
  : DashBoardConfig Cfg + ExtErr :=
  match GetByUser C username userID st with
  | inr err =>
      if negb (isErrNoDocuments C err) then inr err
      else inl generateDefaultDashboardConfig
  | inl cfg =>
      inl {| Cards :=
               map (fun card => {| ID := CardID card; Name := CardName card;
                                   Type_ := CardType card;
                                   Config := CardConfig_ card |})
                   (ModelCards cfg) |}
  end.

(** [fmt.Sprintf("%s-%s", project, name)]. *)
Definition workflowKey (project name : string) : string :=
  project +:+ "-" +:+ name.

(** The loop over [cfg.Cards] that fills [targetMap]; it can leave the
    function, with the empty response or with an error ([inr]). *)
Fixpoint collectTargets (cards : list (CardConfig Cfg)) (cardID : string)
    (targetMap : gmap string Z)
  : gmap string Z + (list WorkflowResponse + ExtErr) :=
  match cards with
  | [] => inl targetMap
  | cardCfg :: rest =>
      if String.eqb (CardType cardCfg) CardTypeMyWorkflow
         && String.eqb (CardID cardCfg) cardID
      then
        match CardConfig_ cardCfg with
        | None => inr (inl [])
        | Some config =>
            match IToi C config with
            | inr err => inr (inr err)
            | inl workflowList =>
                collectTargets rest cardID
                  (fold_left
                     (fun m item =>
                        <[workflowKey (ItemProject item) (ItemName item) := 1%Z]> m)
                     workflowList targetMap)
            end
        end
      else collectTargets rest cardID targetMap
  end.

(** What the last loop appends for a workflow whose key is in the map. *)
Definition responseOf (item : Workflow) : WorkflowResponse :=
  let '(startTime, creator, status) := GetLatestTaskInfo C item in
  {| RespName := WfName item;
     RespProject := WfProjectName item;
     RespCreator := creator;
     RespStartTime := startTime;
     RespStatus := status;
     RespDisplayName := WfDisplayName item;
     RespType := WfWorkflowType item |}.

Definition GetMyWorkflow (header : Header) (username userID cardID : string)
    (st : Store) : list WorkflowResponse + ExtErr :=
  match GetByUser C username userID st with
  | inr err => if negb (isErrNoDocuments C err) then inr err else inl []
  | inl cfg =>
      (* the one rule, with the names the code gives its two fields *)
      match Evaluate C "rbac.user_allowed_projects"
              (generateOPAInput (HeaderGet C) (ToLower C) (AuthorizationHeader C)
                 header "/api/aslan/workflow/workflow" "GET") with
      | inr err => inr err
      | inl allowedProjects =>
          let projects := intersect [allowedProjects] in
          match ListAllAvailableWorkflows C projects with
          | inr err => inr err
          | inl workflowList =>
              match collectTargets (ModelCards cfg) cardID ∅ with
              | inr out => out
              | inl targetMap =>
                  inl (map responseOf
                         (List.filter
                            (fun item =>
                               bool_decide
                                 (is_Some (targetMap
                                             !! workflowKey (WfProjectName item)
                                                            (WfName item))))
                            workflowList))
              end
          end
      end
  end.

(** The record that [CreateOrUpdateDashboardConfiguration] hands to the
    store for a configuration. *)
Definition storedModel (username userID : string) (config : DashBoardConfig Cfg)
  : DashboardConfigModel Cfg :=
  {| ModelCards :=
       map (fun cfg => {| CardID := ID cfg; CardName := Name cfg;
                          CardType := Type_ cfg; CardConfig_ := Config cfg |})
           (Cards config);
     UserID := userID;
     UserName := username |}.

(** The key [key] is that of an item of the workflow list of a card of
    [cfg] that has the type [my_workflow] and the ID [cardID]. *)
Definition Configured (cards : list (CardConfig Cfg)) (cardID key : string) : Prop :=
  exists cardCfg config workflowList item,
    cardCfg ∈ cards /\
    CardType cardCfg = CardTypeMyWorkflow /\
    CardID cardCfg = cardID /\
    CardConfig_ cardCfg = Some config /\
    IToi C config = inl workflowList /\
    item ∈ workflowList /\
    key = workflowKey (ItemProject item) (ItemName item).

End Model.

(** *** Collaborators to run the model on

    The store maps a user ID to the saved configuration; the untyped card
    configuration is the workflow list itself; every workflow of the
    system is in an allowed project. *)
Definition demoWorkflows : list Workflow :=
  [ {| WfName := "b-c"; WfProjectName := "a"; WfDisplayName := "b-c";
       WfWorkflowType := "common_workflow" |};
    {| WfName := "deploy"; WfProjectName := "zadig"; WfDisplayName := "Deploy";
       WfWorkflowType := "common_workflow" |};
    {| WfName := "build"; WfProjectName := "zadig"; WfDisplayName := "Build";
       WfWorkflowType := "common_workflow" |} ].

Definition demoDashboard
  : Collaborators (list WorkflowConfigItem) string
      (gmap string (DashboardConfigModel (list WorkflowConfigItem)))
      (gmap string string) :=
  {| CreateOrUpdate := fun m st => (None, <[UserID m := m]> st);
     GetByUser := fun _ userID st =>
       match st !! userID with
       | Some m => inl m
       | None => inr "mongo: no documents in result"
       end;
     isErrNoDocuments := fun e => String.eqb e "mongo: no documents in result";
     Evaluate := fun _ _ => inl ["zadig"; "a"; "zadig"];
     ListAllAvailableWorkflows := fun projects =>
       inl (List.filter (fun w => bool_decide (WfProjectName w ∈ projects))
                        demoWorkflows);
     IToi := fun c => inl c;
     GetLatestTaskInfo := fun _ => (0%Z, "admin", "passed");
     HeaderGet := fun h k => default "" (h !! k);
     ToLower := fun k => k;
     AuthorizationHeader := "authorization" |}.

Definition demoConfig : DashBoardConfig (list WorkflowConfigItem) :=
  {| Cards := [ {| ID := "card-1"; Name := "mine"; Type_ := "my_workflow";
                   Config := Some [ {| ItemProject := "a-b"; ItemName := "c" |};
                                    {| ItemProject := "zadig"; ItemName := "build" |} ] |} ] |}.

End Dashboard.

(** * Properties *)

(** ** Strings *)

Module GoStringsFacts.
Import GoStrings.

Lemma app_cons (c : ascii) (a b : string) :
  String c a +:+ b = String c (a +:+ b).
Proof. reflexivity. Qed.

Lemma app_nil_l (b : string) : "" +:+ b = b.
Proof. reflexivity. Qed.

Lemma app_nil_r (s : string) : s +:+ "" = s.
Proof. induction s as [|c s IH]; [done | by rewrite app_cons, IH]. Qed.

Lemma app_assoc (a b c : string) : (a +:+ b) +:+ c = a +:+ b +:+ c.
Proof. induction a as [|x a IH]; [done | by rewrite !app_cons, IH]. Qed.

Lemma app_length (a b : string) :
  String.length (a +:+ b) = String.length a + String.length b.
Proof. induction a as [|x a IH]; [done | rewrite app_cons; simpl; by rewrite IH]. Qed.

Lemma length_zero (s : string) : String.length s = 0 -> s = "".
Proof. by destruct s. Qed.

Lemma HasPrefix_true (s p : string) :
  HasPrefix s p = true <-> exists t, s = p +:+ t.
Proof.
  revert s. induction p as [|a p IH]; intros s; cbn [HasPrefix].
  - split; [intros _; exists s; reflexivity | reflexivity].
  - destruct s as [|b s].
    + split; [discriminate | intros [t Ht]; discriminate].
    + destruct (Ascii.eqb_spec a b) as [->|Hne].
      * rewrite IH. split; intros [t Ht]; exists t.
        -- rewrite app_cons. by rewrite Ht.
        -- rewrite app_cons in Ht. by injection Ht.
      * split; [discriminate |].
        intros [t Ht]. rewrite app_cons in Ht. injection Ht. congruence.
Qed.

Lemma HasPrefix_false (s p : string) :
  HasPrefix s p = false <-> ~ exists t, s = p +:+ t.
Proof.
  rewrite <- HasPrefix_true. destruct (HasPrefix s p); split; done.
Qed.

(** If [old] begins [u ++ v] and is no longer than [u], it begins [u]. *)
Lemma prefix_within (old u v t : string) :
  u +:+ v = old +:+ t -> String.length old <= String.length u ->
  exists y, u = old +:+ y.
Proof.
  revert u. induction old as [|a old IH]; intros u Heq Hlen.
  - exists u. reflexivity.
  - destruct u as [|b u]; simpl in Hlen; [lia |].
    rewrite !app_cons in Heq. injection Heq as -> Heq.
    destruct (IH u Heq) as [y ->]; [lia |]. exists y. reflexivity.
Qed.

Lemma Occurs_length (old s : string) :
  Occurs old s -> String.length old <= String.length s.
Proof. intros (a & b & ->). rewrite !app_length. lia. Qed.

Lemma not_Occurs_cons (old : string) (c : ascii) (s : string) :
  ~ Occurs old (String c s) ->
  HasPrefix (String c s) old = false /\ ~ Occurs old s.
Proof.
  intros Hno. split.
  - apply HasPrefix_false. intros [t Ht]. apply Hno. exists "", t. exact Ht.
  - intros (a & b & ->). apply Hno. exists (String c a), b. reflexivity.
Qed.

Lemma FirstAt_nil (old : string) : FirstAt "" old.
Proof.
  intros x y Heq. apply (f_equal String.length) in Heq.
  rewrite !app_length in Heq. simpl in Heq. apply length_zero. lia.
Qed.

Lemma FirstAt_cons_inv (c : ascii) (a old : string) :
  FirstAt (String c a) old -> FirstAt a old.
Proof.
  intros H x y Heq. apply (H (String c x) y). rewrite !app_cons. by rewrite Heq.
Qed.

Lemma FirstAt_cons_no_prefix (c : ascii) (a old b : string) :
  FirstAt (String c a) old ->
  HasPrefix (String c a +:+ old +:+ b) old = false.
Proof.
  intros H. apply HasPrefix_false. intros [t Ht].
  rewrite <- app_assoc in Ht.
  destruct (prefix_within old (String c a +:+ old) b t Ht) as [y Hy].
  { rewrite app_length. lia. }
  pose proof (H "" y Hy) as ->. rewrite app_nil_r in Hy.
  apply (f_equal String.length) in Hy. rewrite app_length in Hy.
  simpl in Hy. lia.
Qed.

Lemma FirstAt_cons (c : ascii) (a old t : string) :
  HasPrefix (String c a +:+ old +:+ t) old = false ->
  FirstAt a old -> FirstAt (String c a) old.
Proof.
  intros Hpre H x y Heq. destruct x as [|c' x].
  - exfalso. apply HasPrefix_false in Hpre. apply Hpre.
    exists (y +:+ t). rewrite app_nil_l in Heq.
    rewrite <- (app_assoc (String c a)), Heq. by rewrite !app_assoc.
  - rewrite !app_cons in Heq. injection Heq as _ Heq. by apply (H x y).
Qed.

Lemma replace_from_skip (old new u b : string) :
  replace_from old new (String.length u) (u +:+ b) = replace_from old new 0 b.
Proof.
  induction u as [|c u IH]; [by destruct b |].
  rewrite app_cons. exact IH.
Qed.

Lemma replace_from_hit_cons (c : ascii) (o new b : string) :
  replace_from (String c o) new 0 (String c o +:+ b)
  = new +:+ replace_from (String c o) new 0 b.
Proof.
  rewrite app_cons. cbn [replace_from].
  rewrite (proj2 (HasPrefix_true (String c (o +:+ b)) (String c o)))
    by (exists b; reflexivity).
  replace (String.length (String c o) - 1) with (String.length o)
    by (simpl; lia).
  by rewrite replace_from_skip.
Qed.

Section Replace.
Variables old new : string.
Hypothesis old_nonempty : old <> "".

Lemma Replace_nonempty (s : string) :
  Replace s old new = replace_from old new 0 s.
Proof. unfold Replace. by destruct old. Qed.

Lemma replace_from_hit (b : string) :
  replace_from old new 0 (old +:+ b) = new +:+ replace_from old new 0 b.
Proof. destruct old; [done | apply replace_from_hit_cons]. Qed.

Lemma replace_from_miss (c : ascii) (s : string) :
  HasPrefix (String c s) old = false ->
  replace_from old new 0 (String c s) = String c (replace_from old new 0 s).
Proof. intros H. cbn [replace_from]. by rewrite H. Qed.

(** Where [old] does not occur, nothing changes. *)
Lemma Replace_no_occurrence (s : string) :
  ~ Occurs old s -> Replace s old new = s.
Proof.
  rewrite Replace_nonempty. induction s as [|c s IH]; intros Hno; [done |].
  destruct (not_Occurs_cons _ _ _ Hno) as [Hpre Hno'].
  rewrite replace_from_miss by done. by rewrite IH.
Qed.

(** At the leftmost occurrence: what precedes it is kept, the occurrence
    becomes [new], and the scan goes on behind it. *)
Lemma Replace_first_occurrence (a b : string) :
  FirstAt a old ->
  Replace (a +:+ old +:+ b) old new = a +:+ new +:+ Replace b old new.
Proof.
  rewrite !Replace_nonempty. induction a as [|c a IH]; intros Hfirst.
  - apply replace_from_hit.
  - pose proof (FirstAt_cons_no_prefix c a old b Hfirst) as Hpre.
    rewrite !app_cons in Hpre |- *. rewrite replace_from_miss by done.
    by rewrite IH by (by eapply FirstAt_cons_inv).
Qed.

(** Every string either has no occurrence of [old] or has a leftmost
    one. *)
Lemma leftmost_occurrence (s : string) :
  ~ Occurs old s \/ exists a b, s = a +:+ old +:+ b /\ FirstAt a old.
Proof.
  induction s as [|c s IH].
  - left. intros H%Occurs_length. simpl in H.
    apply old_nonempty, length_zero. lia.
  - destruct (HasPrefix (String c s) old) eqn:Hpre.
    + right. apply HasPrefix_true in Hpre as [t Ht].
      exists "", t. split; [done | apply FirstAt_nil].
    + destruct IH as [Hno | (a & b & -> & Hfirst)].
      * left. intros (a & b & Heq). destruct a as [|c' a].
        -- apply HasPrefix_false in Hpre. apply Hpre. by exists b.
        -- simpl in Heq. injection Heq as _ ->. apply Hno. by exists a, b.
      * right. exists (String c a), b. split; [done |].
        by eapply FirstAt_cons.
Qed.

Lemma Replace_ReplacedAll (s : string) :
  ReplacedAll old new s (Replace s old new).
Proof.
  remember (String.length s) as n eqn:Hn.
  revert s Hn. induction (lt_wf n) as [n _ IH]; intros s ->.
  destruct (leftmost_occurrence s) as [Hno | (a & b & -> & Hfirst)].
  - rewrite Replace_no_occurrence by done. by constructor.
  - rewrite Replace_first_occurrence by done. constructor; [done |].
    apply (IH (String.length b)); [| done].
    rewrite !app_length. destruct old; [done | simpl; lia].
Qed.

Lemma ReplacedAll_unique (s r : string) :
  ReplacedAll old new s r -> r = Replace s old new.
Proof.
  induction 1 as [s Hno | a b b' Hfirst _ IH].
  - by rewrite Replace_no_occurrence.
  - by rewrite Replace_first_occurrence, IH.
Qed.

End Replace.

(** *** [Split] on the one-byte separator ["="] *)

Lemma Split_eq_cons (c : ascii) (s : string) :
  Split (String c s) "=" =
  if Ascii.eqb "=" c then "" :: Split s "=" else cons_head c (Split s "=").
Proof. unfold Split. cbn [split_from HasPrefix]. by destruct (Ascii.eqb "=" c). Qed.

Lemma Split_eq_nonempty (s : string) : Split s "=" <> [].
Proof.
  destruct s as [|c s]; [done |]. rewrite Split_eq_cons.
  destruct (Ascii.eqb "=" c); [done |]. by destruct (Split s "=").
Qed.

Lemma Occurs_eq_cons (c : ascii) (s : string) :
  Occurs "=" (String c s) <-> c = "="%char \/ Occurs "=" s.
Proof.
  split.
  - intros (a & b & Heq). destruct a as [|c' a]; simpl in Heq.
    + injection Heq as -> _. by left.
    + injection Heq as _ ->. right. by exists a, b.
  - intros [-> | (a & b & ->)].
    + by exists "", s.
    + by exists (String c a), b.
Qed.

Lemma Split_eq_one (s : string) :
  ~ Occurs "=" s <-> Split s "=" = [s].
Proof.
  induction s as [|c s IH].
  - split; [done |]. intros _ H%Occurs_length. simpl in H. lia.
  - rewrite Split_eq_cons, Occurs_eq_cons.
    destruct (Ascii.eqb_spec "=" c) as [<-|Hne].
    + split; [intros H; destruct H; by left | done].
    + pose proof (Split_eq_nonempty s) as Hnil.
      destruct (Split s "=") as [|h t]; [done |]. simpl. split.
      * intros H. assert (h :: t = [s]) as [= -> ->] by (apply IH; tauto). done.
      * intros [= -> ->]. intros [-> | H]; [done |]. by apply IH in H.
Qed.

Lemma Split_eq_singleton (s v : string) :
  Split s "=" = [v] -> v = s /\ ~ Occurs "=" s.
Proof.
  revert v. induction s as [|c s IH]; intros v.
  - intros H. split; [unfold Split in H; simpl in H; congruence |].
    intros Ho%Occurs_length. simpl in Ho. lia.
  - rewrite Split_eq_cons, Occurs_eq_cons.
    pose proof (Split_eq_nonempty s) as Hnil.
    destruct (Ascii.eqb_spec "=" c) as [<-|Hne].
    + intros H. exfalso. apply Hnil. congruence.
    + destruct (Split s "=") as [|h t]; [done |]. unfold cons_head.
      intros H. assert (v = String c h /\ t = []) as [-> ->] by (split; congruence).
      destruct (IH h eq_refl) as [-> Hno]. split; [done |].
      intros [-> | Ho]; done.
Qed.

(** The entries that split into exactly two parts [k] and [v] are those
    of the form [k=v] with no ["="] inside [k] or [v]. *)
Lemma Split_eq_two (val k v : string) :
  Split val "=" = [k; v] <->
  val = k +:+ "=" +:+ v /\ ~ Occurs "=" k /\ ~ Occurs "=" v.
Proof.
  revert k. induction val as [|c s IH]; intros k.
  - split; [done |]. intros [H _]. apply (f_equal String.length) in H.
    rewrite !app_length in H. simpl in H. lia.
  - rewrite Split_eq_cons. destruct (Ascii.eqb_spec "=" c) as [<-|Hne].
    + split.
      * intros H.
        assert (k = "" /\ Split s "=" = [v]) as [-> Hs] by (split; congruence).
        apply Split_eq_singleton in Hs as [-> Hno].
        split; [done |]. split; [| done].
        intros Ho%Occurs_length. simpl in Ho. lia.
      * intros (Heq & Hk & Hv). destruct k as [|c' k].
        -- rewrite app_nil_l, app_cons, app_nil_l in Heq.
           injection Heq as ->. f_equal. by apply Split_eq_one.
        -- rewrite app_cons in Heq. injection Heq as <- _.
           destruct Hk. apply Occurs_eq_cons. by left.
    + pose proof (Split_eq_nonempty s) as Hnil.
      destruct (Split s "=") as [|h t] eqn:Hs; [done |]. unfold cons_head. split.
      * intros H.
        assert (k = String c h /\ t = [v]) as [-> ->] by (split; congruence).
        destruct (proj1 (IH h) eq_refl) as (-> & Hk & Hv).
        split; [done |]. split; [| done].
        rewrite Occurs_eq_cons. intros [-> | Ho]; done.
      * intros (Heq & Hk & Hv). destruct k as [|c' k].
        -- rewrite app_nil_l, app_cons in Heq. injection Heq as Hc _. congruence.
        -- rewrite app_cons in Heq. injection Heq as <- ->.
           assert (h :: t = [k; v]) as Hht; [| congruence].
           apply IH. split; [done |]. split; [| done].
           intros Ho. apply Hk. apply Occurs_eq_cons. by right.
Qed.

Lemma FirstAtb_correct (a old : string) :
  FirstAtb a old = true -> FirstAt a old.
Proof.
  induction a as [|c a IH]; cbn [FirstAtb]; intros H.
  - apply FirstAt_nil.
  - apply andb_prop in H as [Hpre Hrest].
    apply (FirstAt_cons c a old "").
    + rewrite <- app_assoc, app_nil_r. by apply negb_true_iff.
    + by apply IH.
Qed.

End GoStringsFacts.

(** ** SecretMasker *)

Module MaskerFacts.
Import GoStrings GoStringsFacts Masker.

Example maskSecret_token :
  maskSecret ["token123"] "token123 visiting" = "******** visiting".
Proof. reflexivity. Qed.

Example maskSecretEnvs_export :
  maskSecretEnvs ("export KEY=SECRETVAL" +:+ Redactor.LF) ["KEY=SECRETVAL"]
  = "export KEY=********" +:+ Redactor.LF.
Proof. reflexivity. Qed.

Example Split_three : Split "A=B=C" "=" = ["A"; "B"; "C"].
Proof. reflexivity. Qed.

Example maskSecretEnvs_malformed :
  maskSecretEnvs "A=B=C and B=C and B and C" ["A=B=C"; "=B"; "A="; "A"; ""]
  = "A=B=C and B=C and B and C".
Proof. reflexivity. Qed.

Example Replace_overlap : Replace "aaa" "aa" "********" = "********a".
Proof. reflexivity. Qed.

Lemma maskSecretEnvs_snoc (message : string) (before : list string) (val : string) :
  maskSecretEnvs message (before ++ [val])
  = maskSecretEnvs_body (maskSecretEnvs message before) val.
Proof. unfold maskSecretEnvs. by rewrite fold_left_app. Qed.

(** An entry that splits into a non-empty key and a non-empty value gets
    to the [strings.Replace], with the value as [old]. *)
Lemma maskSecretEnvs_body_pair (out val k v : string) :
  Split val "=" = [k; v] -> k <> "" -> v <> "" ->
  maskSecretEnvs_body out val = Replace out v secretEnvMask.
Proof.
  intros Hsplit Hk Hv. unfold maskSecretEnvs_body.
  destruct val as [|c val]; [done |].
  cbn [String.length Nat.eqb]. rewrite Hsplit.
  destruct k as [|ck k]; [done |]. destruct v as [|cv v]; [done |].
  reflexivity.
Qed.

(** Any other entry is passed over. *)
Lemma maskSecretEnvs_body_skip (out val : string) :
  (~ exists k v, Split val "=" = [k; v] /\ k <> "" /\ v <> "") ->
  maskSecretEnvs_body out val = out.
Proof.
  intros Hno. unfold maskSecretEnvs_body.
  destruct (String.length val =? 0); [done |].
  destruct (Split val "=") as [|k [|v [|x sl]]]; try done.
  cbn [length Nat.eqb negb nth].
  destruct k as [|ck k]; [done |]. destruct v as [|cv v]; [done |].
  exfalso. apply Hno. by exists (String ck k), (String cv v).
Qed.

(** The argument handed to [strings.Replace] is never empty. *)
Lemma maskSecretEnvs_old_nonempty (out val : string) :
  maskSecretEnvs_body out val = out \/
  exists v, v <> "" /\ maskSecretEnvs_body out val = Replace out v secretEnvMask.
Proof.
  destruct (Split val "=") as [|k [|v [|x sl]]] eqn:Hs;
    try (left; apply maskSecretEnvs_body_skip; intros (k' & v' & H & _); congruence).
  destruct (decide (k = "")) as [->|Hk].
  { left. apply maskSecretEnvs_body_skip. intros (k' & v' & H & ? & _). congruence. }
  destruct (decide (v = "")) as [->|Hv].
  { left. apply maskSecretEnvs_body_skip. intros (k' & v' & H & _ & ?). congruence. }
  right. exists v. split; [done |]. by eapply maskSecretEnvs_body_pair.
Qed.

(** C3, as the code has it.  When [maskSecretEnvs] comes to an entry [val]
    of its list, with [out] the text as the earlier entries left it:
    if [val] splits at ["="] into exactly two non-empty parts [k] and [v],
    the new text is [out] with every occurrence of [v], found from the left
    and not overlapping, replaced by the mask of eight asterisks, and a
    [k=] standing right before an occurrence of [v] stays as it is provided
    that occurrence is the leftmost one; if [val] does not split that way
    (more than one ["="], none, or an empty part), the text is unchanged. *)
Theorem C3_maskSecretEnvs_entry (message : string) (before : list string) (val : string) :
  let out := maskSecretEnvs message before in
  let out' := maskSecretEnvs message (before ++ [val]) in
  String.length secretEnvMask = 8 /\
  (forall k v, Split val "=" = [k; v] -> k <> "" -> v <> "" ->
     ReplacedAll v secretEnvMask out out' /\
     (forall pre post,
        out = pre +:+ k +:+ "=" +:+ v +:+ post ->
        FirstAt (pre +:+ k +:+ "=") v ->
        out' = pre +:+ k +:+ "=" +:+ secretEnvMask +:+ Replace post v secretEnvMask)) /\
  ((~ exists k v, Split val "=" = [k; v] /\ k <> "" /\ v <> "") -> out' = out).
Proof.
  intros out out'. subst out out'. rewrite maskSecretEnvs_snoc.
  split; [reflexivity |]. split.
  - intros k v Hsplit Hk Hv.
    rewrite (maskSecretEnvs_body_pair _ _ _ _ Hsplit Hk Hv). split.
    + by apply Replace_ReplacedAll.
    + intros pre post -> Hfirst.
      rewrite <- (app_assoc k "=" (v +:+ post)).
      rewrite <- (app_assoc pre (k +:+ "=") (v +:+ post)).
      rewrite Replace_first_occurrence by (by rewrite ?app_assoc).
      by rewrite !app_assoc.
  - apply maskSecretEnvs_body_skip.
Qed.

Lemma C3_maskSecretEnvs_entry_witness :
  maskSecretEnvs ("export KEY=SECRETVAL" +:+ Redactor.LF) ([] ++ ["KEY=SECRETVAL"])
  = "export " +:+ "KEY" +:+ "=" +:+ secretEnvMask
    +:+ Replace Redactor.LF "SECRETVAL" secretEnvMask
  /\ maskSecretEnvs "B=C" (["KEY=SECRETVAL"] ++ ["A=B=C"])
     = maskSecretEnvs "B=C" ["KEY=SECRETVAL"].
Proof.
  split.
  - apply (proj1 (proj2 (C3_maskSecretEnvs_entry
             ("export KEY=SECRETVAL" +:+ Redactor.LF) [] "KEY=SECRETVAL"))
             "KEY" "SECRETVAL");
      [reflexivity | discriminate | discriminate | reflexivity |].
    apply FirstAtb_correct. vm_compute. reflexivity.
  - apply (proj2 (proj2 (C3_maskSecretEnvs_entry "B=C" ["KEY=SECRETVAL"] "A=B=C"))).
    intros (k & v & H & _). vm_compute in H. discriminate H.
Defined.

(** C3 as the spec words it does not hold: the value of a well-formed
    entry is replaced wherever it stands, inside the key as well, so the
    [KEY=] in front of the value is not always left as it was. *)
Lemma C3_key_prefix_counterexample :
  Split "PASSWORD=PASS" "=" = ["PASSWORD"; "PASS"] /\
  maskSecretEnvs "export PASSWORD=PASS" ["PASSWORD=PASS"]
  = "export ********WORD=********" /\
  ~ (forall message val k v,
       Split val "=" = [k; v] -> k <> "" -> v <> "" ->
       forall pre post,
         message = pre +:+ k +:+ "=" +:+ post ->
         exists post', maskSecretEnvs message [val] = pre +:+ k +:+ "=" +:+ post').
Proof.
  split; [reflexivity |]. split; [reflexivity |].
  intros H.
  destruct (H "export PASSWORD=PASS" "PASSWORD=PASS" "PASSWORD" "PASS"
              eq_refl ltac:(discriminate) ltac:(discriminate)
              "export " "PASS" eq_refl) as [post' Hpost].
  vm_compute in Hpost. discriminate Hpost.
Qed.

End MaskerFacts.

(** ** OutputRedactor *)

Module RedactorFacts.
Import GoStrings Masker Redactor.

Example readLines_partial :
  readLines ("one" +:+ LF +:+ LF +:+ "two" +:+ LF +:+ "rest")
  = ["one" +:+ LF; LF; "two" +:+ LF].
Proof. reflexivity. Qed.

Section Lines.
Context {ExtErr World : Type}.
Variable WriteFile : string -> string -> N -> World -> option ExtErr * World.

(** For one line, whatever [util.WriteFile] does with it: standard output
    gets the masked line, and with persistence on the file writer is
    called next, with the line as it was read. *)
Lemma handleLine_events (logFile : string) (secretEnvs : list string)
    (st : State ExtErr World) (lineBytes : string) :
  events (handleLine WriteFile false logFile secretEnvs st lineBytes)
  = events st ++ [Printf (maskSecretEnvs lineBytes secretEnvs)]
  /\ exists warn,
       events (handleLine WriteFile true logFile secretEnvs st lineBytes)
       = events st ++ [Printf (maskSecretEnvs lineBytes secretEnvs);
                       WriteFileCall logFile lineBytes 448%N] ++ warn.
Proof.
  split; [reflexivity |]. unfold handleLine. cbn [emit world events].
  destruct (WriteFile logFile lineBytes 448%N (world st)) as [[e|] w];
    cbn [emit world events].
  - eexists [_]. by rewrite <- !app_assoc.
  - exists []. by rewrite <- !app_assoc.
Qed.

End Lines.

(** C1 at a secret in the output.  The stream carries the line
    [export KEY=SECRETVAL], persistence is on and [KEY=SECRETVAL] is a
    secret entry: standard output gets the masked line, and the log file
    gets the line with the secret in it. *)
Theorem C1_persisted_line_unmasked :
  let line := "export KEY=SECRETVAL" +:+ LF in
  let st := handleCmdOutput appendFile {| content := line; ending := EOF |}
              true "job.log" ["KEY=SECRETVAL"] {| world := ∅; events := [] |} in
  events st = [Printf ("export KEY=********" +:+ LF);
               WriteFileCall "job.log" line 448%N]
  /\ world st !! "job.log" = Some line
  /\ world st !! "job.log" <> Some (maskSecretEnvs line ["KEY=SECRETVAL"]).
Proof. vm_compute. split; [reflexivity |]. split; [reflexivity | discriminate]. Qed.

End RedactorFacts.

(** ** StepRunner *)

Module RunnerFacts.
Import Runner.

Section Run.
Context {Payload ExtErr World : Type}.
Variable X : Executors Payload ExtErr World.
Variables workspace paths : string.
Variables envs secretEnvs : list string.

Lemma dispatch_calls (k : StepKind) (spec : Payload)
    (new : World -> (StepInstance ExtErr World + ExtErr) * World)
    (st : IO Payload ExtErr World) :
  exists rest,
    calls (snd (dispatch k spec new st)) = calls st ++ CallNew k spec :: rest
    /\ (forall msg, fst (dispatch k spec new st) <> Some (Errorf msg))
    /\ (forall msg, LogError (Errorf msg) ∉ rest).
Proof.
  unfold dispatch. destruct (new (world st)) as [[inst|e] w1].
  - destruct (Run inst w1) as [[e|] w2]; cbn [fst snd calls record world].
    + exists [CallRun k; LogError (ExecutorError e)].
      split; [by rewrite <- !app_assoc |]. split; [done |].
      intros msg Hin.
      repeat (apply elem_of_cons in Hin as [Hin|Hin]; [discriminate Hin |]).
      by apply elem_of_nil in Hin.
    + exists [CallRun k]. split; [by rewrite <- !app_assoc |]. split; [done |].
      intros msg Hin.
      repeat (apply elem_of_cons in Hin as [Hin|Hin]; [discriminate Hin |]).
      by apply elem_of_nil in Hin.
  - exists []. cbn [fst snd calls]. split; [done |]. split; [done |].
    intros msg. apply not_elem_of_nil.
Qed.

Lemma runStep_known (step : Step Payload) (k : StepKind)
    (st : IO Payload ExtErr World) :
  kindOfType (StepType step) = Some k ->
  runStep X step workspace paths envs secretEnvs st
  = dispatch k (Spec step)
      (stepConstructor X workspace paths envs secretEnvs k (Spec step)) st.
Proof.
  unfold kindOfType, runStep.
  repeat (destruct (String.eqb (StepType step) _);
          [intros ?; simplify_eq; reflexivity |]).
  discriminate.
Qed.

Lemma runStep_unknown (step : Step Payload) (st : IO Payload ExtErr World) :
  kindOfType (StepType step) = None ->
  let err := Errorf ("step type: " +:+ StepType step
                     +:+ " does not match any known type") in
  runStep X step workspace paths envs secretEnvs st
  = (Some err, record (LogError err) st).
Proof.
  unfold kindOfType, runStep.
  repeat (destruct (String.eqb (StepType step) _); [discriminate |]).
  reflexivity.
Qed.

(** [runStep] always calls something: a constructor or [log.Error]. *)
Lemma runStep_calls (step : Step Payload) (st : IO Payload ExtErr World) :
  exists c rest,
    calls (snd (runStep X step workspace paths envs secretEnvs st))
    = calls st ++ c :: rest.
Proof.
  destruct (kindOfType (StepType step)) as [k|] eqn:Hk.
  - rewrite (runStep_known _ _ _ Hk).
    destruct (dispatch_calls k (Spec step)
                (stepConstructor X workspace paths envs secretEnvs k (Spec step)) st)
      as (rest & H & _).
    eauto.
  - rewrite (runStep_unknown _ _ Hk). cbn [snd record calls]. eauto.
Qed.

Lemma runStep_changes_io (step : Step Payload) (st : IO Payload ExtErr World) :
  snd (runStep X step workspace paths envs secretEnvs st) <> st.
Proof.
  intros Heq. destruct (runStep_calls step st) as (c & rest & H).
  rewrite Heq in H. apply (f_equal length) in H.
  rewrite length_app in H. simpl in H. lia.
Qed.

Variable st0 : IO Payload ExtErr World.

Local Abbreviation stateAfter := (stateAfter X workspace paths envs secretEnvs st0).
Local Abbreviation runStepAfter := (runStepAfter X workspace paths envs secretEnvs st0).
Local Abbreviation Dispatched := (Dispatched X workspace paths envs secretEnvs st0).
Local Abbreviation Skipped := (Skipped X workspace paths envs secretEnvs st0).
Local Abbreviation FailsAt := (FailsAt X workspace paths envs secretEnvs st0).
Local Abbreviation FailedBefore := (FailedBefore X workspace paths envs secretEnvs st0).
Local Abbreviation guard ls s := (hasFailed ls && negb (Onfailure s)).

Lemma stateAfter_snoc (pre : list (Step Payload)) (s : Step Payload) :
  stateAfter (pre ++ [s])
  = RunSteps_body X workspace paths envs secretEnvs (stateAfter pre) s.
Proof. unfold Runner.stateAfter, RunSteps_loop. by rewrite fold_left_app. Qed.

Lemma stateAfter_app (pre post : list (Step Payload)) :
  stateAfter (pre ++ post)
  = RunSteps_loop X workspace paths envs secretEnvs post (stateAfter pre).
Proof. unfold Runner.stateAfter, RunSteps_loop. by rewrite fold_left_app. Qed.

Lemma body_skip (ls : LoopState Payload ExtErr World) (s : Step Payload) :
  guard ls s = true ->
  RunSteps_body X workspace paths envs secretEnvs ls s = ls.
Proof. intros H. unfold RunSteps_body. by rewrite H. Qed.

Lemma body_run (ls : LoopState Payload ExtErr World) (s : Step Payload) :
  guard ls s = false ->
  let r := runStep X s workspace paths envs secretEnvs (io ls) in
  RunSteps_body X workspace paths envs secretEnvs ls s
  = match fst r with
    | Some e => {| hasFailed := true; respErr := Some e; io := snd r |}
    | None => {| hasFailed := hasFailed ls; respErr := respErr ls; io := snd r |}
    end.
Proof.
  intros H. unfold RunSteps_body. rewrite H.
  by destruct (runStep X s workspace paths envs secretEnvs (io ls)) as [[e|] st].
Qed.

Lemma Dispatched_iff_guard (pre : list (Step Payload)) (s : Step Payload) :
  Dispatched pre s <-> guard (stateAfter pre) s = false.
Proof.
  unfold Runner.Dispatched, Runner.runStepAfter. rewrite stateAfter_snoc.
  destruct (guard (stateAfter pre) s) eqn:Hg.
  - rewrite body_skip by done. split; [| done].
    intros H. symmetry in H. by apply runStep_changes_io in H.
  - rewrite body_run by done. split; [done | intros _].
    by destruct (fst (runStep X s workspace paths envs secretEnvs (io (stateAfter pre)))).
Qed.

Lemma Skipped_iff_guard (pre : list (Step Payload)) (s : Step Payload) :
  Skipped pre s <-> guard (stateAfter pre) s = true.
Proof.
  unfold Runner.Skipped. rewrite stateAfter_snoc.
  destruct (guard (stateAfter pre) s) eqn:Hg.
  - by rewrite body_skip.
  - rewrite body_run by done. split; [| done]. intros H. exfalso.
    apply (runStep_changes_io s (io (stateAfter pre))).
    etrans; [| exact H].
    by destruct (fst (runStep X s workspace paths envs secretEnvs (io (stateAfter pre)))).
Qed.

(** The flag only ever goes up. *)
Lemma hasFailed_body (ls : LoopState Payload ExtErr World) (s : Step Payload) :
  hasFailed ls = true ->
  hasFailed (RunSteps_body X workspace paths envs secretEnvs ls s) = true.
Proof.
  intros H. destruct (guard ls s) eqn:Hg.
  - by rewrite body_skip.
  - rewrite body_run by done.
    by destruct (fst (runStep X s workspace paths envs secretEnvs (io ls))).
Qed.

(** The flag is up exactly when some step so far was dispatched and
    failed. *)
Lemma hasFailed_iff (pre : list (Step Payload)) :
  hasFailed (stateAfter pre) = true <-> FailedBefore pre.
Proof.
  induction pre as [|s pre IH] using rev_ind.
  - split; [done |]. intros (p1 & s & p2 & e & H & _). by destruct p1.
  - rewrite stateAfter_snoc. split.
    + intros H. destruct (guard (stateAfter pre) s) eqn:Hg.
      * rewrite body_skip in H by done. apply IH in H as (p1 & s' & p2 & e & -> & Hf).
        exists p1, s', (p2 ++ [s]), e. split; [by rewrite <- app_assoc | done].
      * rewrite body_run in H by done.
        destruct (fst (runStep X s workspace paths envs secretEnvs (io (stateAfter pre))))
          as [e|] eqn:Hr.
        -- exists pre, s, [], e. split; [done |]. split; [| done].
           by apply Dispatched_iff_guard.
        -- apply IH in H as (p1 & s' & p2 & e & -> & Hf).
           exists p1, s', (p2 ++ [s]), e. split; [by rewrite <- app_assoc | done].
    + intros (p1 & s' & p2 & e & Heq & Hd & Hr).
      destruct p2 as [|x p2 _] using rev_ind.
      * apply app_inj_tail in Heq as [-> ->].
        apply Dispatched_iff_guard in Hd. rewrite body_run by done.
        unfold Runner.runStepAfter in Hr. by rewrite Hr.
      * rewrite app_comm_cons, app_assoc in Heq. apply app_inj_tail in Heq as [-> ->].
        apply hasFailed_body, IH. by exists p1, s', p2, e.
Qed.

(** The error slot is filled exactly when the flag is up. *)
Lemma respErr_iff (pre : list (Step Payload)) :
  respErr (stateAfter pre) = None <-> hasFailed (stateAfter pre) = false.
Proof.
  induction pre as [|s pre IH] using rev_ind; [done |].
  rewrite stateAfter_snoc. destruct (guard (stateAfter pre) s) eqn:Hg.
  - by rewrite body_skip.
  - rewrite body_run by done.
    by destruct (fst (runStep X s workspace paths envs secretEnvs (io (stateAfter pre)))).
Qed.

Lemma kindOfType_stepTypes (ty : string) :
  is_Some (kindOfType ty) <-> ty ∈ stepTypes.
Proof.
  unfold kindOfType, stepTypes.
  repeat (match goal with
          | |- context [String.eqb ty ?x] => destruct (String.eqb_spec ty x) as [->|?]
          end;
          [split; intros _;
             [repeat first [apply list_elem_of_here | apply list_elem_of_further]
             | by eexists] |]).
  split; [by intros [? ?] |].
  intros Hin. repeat (apply elem_of_cons in Hin as [Hin|Hin]; [done |]).
  by apply elem_of_nil in Hin.
Qed.

(** C2, as the code has it.  The eight types the switch knows are
    [shell], [git], [docker_build], [tools], [archive], [junit_report],
    [tar_archive] and [sonar_check].  For a step of one of them [runStep]
    calls the constructor of that kind with the step's spec as the first
    thing it does, goes on as every case does, and neither returns nor
    logs the unknown-type error of its own making.  For a step of any other
    type nothing is constructed or run: the error
    ["step type: T does not match any known type"] is logged and returned,
    and [RunSteps], when it has not passed the step over, sets the flag,
    keeps that error and goes on with the steps that follow. *)
Theorem C2_runStep_dispatch (step : Step Payload) (st : IO Payload ExtErr World) :
  let r := runStep X step workspace paths envs secretEnvs st in
  (is_Some (kindOfType (StepType step)) <-> StepType step ∈ stepTypes) /\
  (forall k, kindOfType (StepType step) = Some k ->
     r = dispatch k (Spec step)
           (stepConstructor X workspace paths envs secretEnvs k (Spec step)) st
     /\ exists rest,
          calls (snd r) = calls st ++ CallNew k (Spec step) :: rest
          /\ (forall msg, fst r <> Some (Errorf msg))
          /\ (forall msg, LogError (Errorf msg) ∉ rest)) /\
  (kindOfType (StepType step) = None ->
     let err := Errorf ("step type: " +:+ StepType step
                        +:+ " does not match any known type") in
     r = (Some err, record (LogError err) st)
     /\ forall ls rest,
          io ls = st -> hasFailed ls && negb (Onfailure step) = false ->
          RunSteps_loop X workspace paths envs secretEnvs (step :: rest) ls
          = RunSteps_loop X workspace paths envs secretEnvs rest
              {| hasFailed := true; respErr := Some err;
                 io := record (LogError err) st |}).
Proof.
  intros r. subst r. split; [apply kindOfType_stepTypes |]. split.
  - intros k Hk. rewrite (runStep_known _ _ _ Hk). split; [done |].
    apply dispatch_calls.
  - intros Hk err. pose proof (runStep_unknown step st Hk) as Hr.
    cbn zeta in Hr. fold err in Hr. split; [exact Hr |].
    intros ls rest <- Hg. unfold RunSteps_loop. cbn [fold_left].
    by rewrite body_run, Hr by done.
Qed.

(** C4.  In a run that has gone through [pre] and comes to [s]: if some
    step of [pre] was dispatched and failed, [s] is dispatched exactly when
    its [Onfailure] is set and passed over exactly when it is not; with
    [Onfailure] set [s] is dispatched whatever happened before; a
    dispatched step of a known type has its constructor called next; and
    the whole run is the rest of the loop from there. *)
Theorem C4_dispatch_after_failure (pre : list (Step Payload)) (s : Step Payload) :
  (FailedBefore pre ->
     (Dispatched pre s <-> Onfailure s = true)
     /\ (Skipped pre s <-> Onfailure s = false)) /\
  (Onfailure s = true -> Dispatched pre s) /\
  (Dispatched pre s -> forall k, kindOfType (StepType s) = Some k ->
     exists rest, calls (io (stateAfter (pre ++ [s])))
                  = calls (io (stateAfter pre)) ++ CallNew k (Spec s) :: rest) /\
  (forall post,
     RunSteps X (pre ++ s :: post) workspace paths envs secretEnvs st0
     = let ls := RunSteps_loop X workspace paths envs secretEnvs post
                   (stateAfter (pre ++ [s])) in
       (respErr ls, io ls)).
Proof.
  split; [| split; [| split]].
  - intros Hf%hasFailed_iff.
    rewrite Dispatched_iff_guard, Skipped_iff_guard, Hf.
    destruct (Onfailure s); split; split; done.
  - intros Hon. apply Dispatched_iff_guard. rewrite Hon. apply andb_false_r.
  - intros Hd k Hk. rewrite Hd. unfold Runner.runStepAfter.
    rewrite (runStep_known _ _ _ Hk).
    destruct (dispatch_calls k (Spec s)
                (stepConstructor X workspace paths envs secretEnvs k (Spec s))
                (io (stateAfter pre))) as (rest & H & _).
    by exists rest.
  - intros post. unfold RunSteps.
    change (RunSteps_loop X workspace paths envs secretEnvs (pre ++ s :: post)
              (RunSteps_init st0)) with (stateAfter (pre ++ s :: post)).
    by rewrite (cons_middle s pre post), app_assoc, stateAfter_app.
Qed.

(** C5.  [RunSteps] returns nil exactly when no step was dispatched and
    failed; and when a step was dispatched and failed with [e] and no step
    after it was dispatched and failed, [RunSteps] returns [e], whatever
    failures came before and whatever steps, run or passed over, came
    after. *)
Theorem C5_RunSteps_result (steps : list (Step Payload)) :
  (fst (RunSteps X steps workspace paths envs secretEnvs st0) = None <->
   ~ exists p1 s p2 e, steps = p1 ++ s :: p2 /\ FailsAt p1 s e) /\
  (forall p1 s p2 e,
     steps = p1 ++ s :: p2 ->
     FailsAt p1 s e ->
     (forall q1 s' q2 e', p2 = q1 ++ s' :: q2 -> ~ FailsAt (p1 ++ s :: q1) s' e') ->
     fst (RunSteps X steps workspace paths envs secretEnvs st0) = Some e).
Proof.
  unfold RunSteps. cbn [fst].
  change (RunSteps_loop X workspace paths envs secretEnvs steps (RunSteps_init st0))
    with (stateAfter steps).
  split.
  - rewrite respErr_iff. rewrite <- not_true_iff_false. by rewrite hasFailed_iff.
  - intros p1 s p2 e -> [Hd Hr]. unfold Runner.runStepAfter in Hr.
    induction p2 as [|x p2 IH] using rev_ind; intros Hlater.
    + rewrite stateAfter_snoc. apply Dispatched_iff_guard in Hd.
      rewrite body_run by done. by rewrite Hr.
    + rewrite app_comm_cons, app_assoc, stateAfter_snoc.
      assert (respErr (stateAfter (p1 ++ s :: p2)) = Some e) as Hprev.
      { apply IH. intros q1 s' q2 e' ->. apply (Hlater q1 s' (q2 ++ [x]) e').
        by rewrite <- app_assoc. }
      destruct (guard (stateAfter (p1 ++ s :: p2)) x) eqn:Hg.
      * by rewrite body_skip.
      * rewrite body_run by done.
        destruct (fst (runStep X x workspace paths envs secretEnvs
                         (io (stateAfter (p1 ++ s :: p2))))) as [e'|] eqn:Hx;
          [| done].
        exfalso. apply (Hlater p2 x [] e'); [done |].
        split; [by apply Dispatched_iff_guard | exact Hx].
Qed.

(** C10.  With no steps [RunSteps] returns nil and leaves the outside as
    it was: nothing is constructed, run or logged. *)
Theorem C10_RunSteps_nil (st : IO Payload ExtErr World) :
  RunSteps X [] workspace paths envs secretEnvs st = (None, st).
Proof. reflexivity. Qed.

End Run.

(** *** The statements at work *)

Example RunSteps_spec_example :
  RunSteps demoExecutors [stepA; stepB; stepD] "/workspace" "" [] [] demoStart
  = (Some (ExecutorError "exit status 1"),
     {| world := ["make"; "exit 1"; "upload logs"];
        calls := [CallNew Shell "make"; CallRun Shell;
                  CallNew Shell "exit 1"; CallRun Shell;
                  LogError (ExecutorError "exit status 1");
                  CallNew Archive "upload logs"; CallRun Archive] |}).
Proof. reflexivity. Qed.

Lemma demo_FailsAt_B :
  FailsAt demoExecutors "/workspace" "" [] [] demoStart [stepA] stepB
    (ExecutorError "exit status 1").
Proof. split; reflexivity. Defined.

Lemma C2_runStep_dispatch_witness :
  (exists rest,
     calls (snd (runStep demoExecutors
                   {| StepType := "tools"; Spec := "go"; Onfailure := false |}
                   "/workspace" "" [] [] demoStart))
     = calls demoStart ++ CallNew ToolInstall "go" :: rest)
  /\ runStep demoExecutors
       {| StepType := "deploy"; Spec := "prod"; Onfailure := false |}
       "/workspace" "" [] [] demoStart
     = (Some (Errorf "step type: deploy does not match any known type"),
        {| world := [];
           calls := [LogError (Errorf "step type: deploy does not match any known type")] |}).
Proof.
  split.
  - destruct (proj1 (proj2 (C2_runStep_dispatch demoExecutors "/workspace" "" [] []
                {| StepType := "tools"; Spec := "go"; Onfailure := false |} demoStart))
                ToolInstall eq_refl) as (_ & rest & H & _).
    by exists rest.
  - exact (proj1 (proj2 (proj2 (C2_runStep_dispatch demoExecutors "/workspace" "" [] []
             {| StepType := "deploy"; Spec := "prod"; Onfailure := false |} demoStart))
             eq_refl)).
Defined.

(** C2 as the spec words it does not hold for [tool_install]: the switch
    has no such case (its tag for the tool installer is [tools]), so a step
    of that type gets the unknown-type error and no executor. *)
Lemma C2_tool_install_counterexample :
  runStep demoExecutors
    {| StepType := "tool_install"; Spec := "go"; Onfailure := false |}
    "/workspace" "" [] [] demoStart
  = (Some (Errorf "step type: tool_install does not match any known type"),
     {| world := [];
        calls := [LogError
                    (Errorf "step type: tool_install does not match any known type")] |}).
Proof. reflexivity. Qed.

Lemma C4_dispatch_after_failure_witness :
  ((Dispatched demoExecutors "/workspace" "" [] [] demoStart [stepA; stepB] stepC
    <-> Onfailure stepC = true)
   /\ (Skipped demoExecutors "/workspace" "" [] [] demoStart [stepA; stepB] stepC
       <-> Onfailure stepC = false))
  /\ Dispatched demoExecutors "/workspace" "" [] [] demoStart [stepA; stepB; stepC] stepD
  /\ exists rest,
       calls (io (stateAfter demoExecutors "/workspace" "" [] [] demoStart
                    ([stepA; stepB; stepC] ++ [stepD])))
       = calls (io (stateAfter demoExecutors "/workspace" "" [] [] demoStart
                      [stepA; stepB; stepC]))
         ++ CallNew Archive "upload logs" :: rest.
Proof.
  pose proof (C4_dispatch_after_failure demoExecutors "/workspace" "" [] [] demoStart
                [stepA; stepB; stepC] stepD) as (_ & Hon & Hcall & _).
  split; [| split].
  - apply (proj1 (C4_dispatch_after_failure demoExecutors "/workspace" "" [] []
                    demoStart [stepA; stepB] stepC)).
    exists [stepA], stepB, [], (ExecutorError "exit status 1").
    split; [reflexivity | exact demo_FailsAt_B].
  - apply Hon. reflexivity.
  - apply (Hcall (Hon eq_refl) Archive). reflexivity.
Defined.

Lemma C5_RunSteps_result_witness :
  fst (RunSteps demoExecutors [stepA; stepB; stepC; stepD] "/workspace" "" [] []
         demoStart)
  = Some (ExecutorError "exit status 1").
Proof.
  apply (proj2 (C5_RunSteps_result demoExecutors "/workspace" "" [] [] demoStart
                  [stepA; stepB; stepC; stepD])
           [stepA] stepB [stepC; stepD] (ExecutorError "exit status 1")).
  - reflexivity.
  - exact demo_FailsAt_B.
  - intros q1 s' q2 e' Heq [Hd Hr].
    destruct q1 as [|y1 [|y2 q1]].
    + injection Heq as <- <-. vm_compute in Hd. discriminate Hd.
    + injection Heq as <- <- <-. vm_compute in Hr. discriminate Hr.
    + injection Heq as _ _ Heq. by destruct q1.
Defined.

End RunnerFacts.

(** ** ValueSourceSyncer and ConcurrentFetchMerger *)

Module RenderSetFacts.
Import RenderSet.

Lemma omap_ext_elem {A B : Type} (f g : A -> option B) (l : list A) :
  (forall x, x ∈ l -> f x = g x) -> omap f l = omap g l.
Proof.
  induction l as [|x l IH]; intros H; [done |]. cbn [omap list_omap].
  rewrite (H x) by apply list_elem_of_here.
  rewrite IH; [done |]. intros y Hy. apply H. by apply list_elem_of_further.
Qed.

Lemma omap_seq_shift {B : Type} (f : nat -> option B) (j n : nat) :
  omap f (seq (S j) n) = omap (fun i => f (S i)) (seq j n).
Proof.
  revert j. induction n as [|n IH]; intros j; [done |].
  cbn [seq omap list_omap]. by rewrite IH.
Qed.

(** Going through the indices of a list in rising order is going through
    the list. *)
Lemma omap_lookup_seq {A B : Type} (g : A -> option B) (l : list A) :
  omap (fun i => l !! i ≫= g) (seq 0 (length l)) = omap g l.
Proof.
  induction l as [|x l IH]; [done |].
  cbn [length seq omap list_omap]. rewrite omap_seq_shift.
  simpl. by rewrite IH.
Qed.

Section Sync.
Context {Detail ExtErr : Type}.
Variable C : Collaborators Detail ExtErr.

(** C8.  With [AutoSync] on and the variable set as origin: a failed
    lookup is returned with [(false, "")]; otherwise the stored value is
    compared with the current one, and a failed comparison gives
    [(false, "")] with its error, equal documents give [(false, "")] and no
    error, and different documents give [(true, stored value)] and no
    error.  So whenever [yamlutil.Equal] finds the two equal, as it is to
    do for documents that differ in key order or white space only, nothing
    is reported as changed. *)
Theorem C8_sync_variable_set (yamlData : CustomYaml Detail) (curValue : string) :
  AutoSync yamlData = true ->
  Source yamlData = SourceFromVariableSet C ->
  let result := SyncYamlFromSource C (Some yamlData) curValue in
  match VariableSetFind C (SourceID yamlData) with
  | inr err => result = (false, "", Some (External err))
  | inl variableSet =>
      let stored := VariableYaml variableSet in
      match yamlEqual C stored curValue with
      | (_, Some err) => result = (false, "", Some (External err))
      | (true, None) => result = (false, "", None)
      | (false, None) => result = (true, stored, None)
      end
      /\ (fst (yamlEqual C stored curValue) = true -> fst (fst result) = false)
  end.
Proof.
  intros Hauto Hsrc result. subst result.
  unfold SyncYamlFromSource, syncYamlFromVariableSet.
  rewrite Hauto, Hsrc, String.eqb_refl. cbn [negb].
  destruct (VariableSetFind C (SourceID yamlData)) as [vs|err]; [| done].
  destruct (yamlEqual C (VariableYaml vs) curValue) as [[|] [err|]];
    cbn [fst]; split; done.
Qed.

(** C9.  Whatever the source and the current value: a result that reports
    no change carries the empty string, and a result that reports a change
    carries no error and, as its value, the value stored in the variable
    set that was found or the content that was downloaded. *)
Theorem C9_sync_result_invariant (yamlData : option (CustomYaml Detail))
    (curValue : string) :
  let result := SyncYamlFromSource C yamlData curValue in
  let changed := fst (fst result) in
  let newValue := snd (fst result) in
  let err := snd result in
  (changed = false -> newValue = "") /\
  (changed = true ->
   err = None /\
   exists y, yamlData = Some y /\ AutoSync y = true /\
     ((Source y = SourceFromVariableSet C /\
       exists variableSet,
         VariableSetFind C (SourceID y) = inl variableSet /\
         newValue = VariableYaml variableSet) \/
      (Source y <> SourceFromVariableSet C /\ fromGitRepo C (Source y) = true /\
       exists sourceDetail repoConfig,
         UnMarshalSourceDetail C (SourceDetail y) = inl sourceDetail /\
         GitRepoConfig_ sourceDetail = Some repoConfig /\
         DownloadFileFromSource C
           {| ArgCodehostID := GitCodehostID repoConfig;
              ArgNamespace := GitNamespace repoConfig;
              ArgOwner := GitOwner repoConfig;
              ArgRepo := GitRepo repoConfig;
              ArgPath := LoadPath sourceDetail;
              ArgBranch := GitBranch repoConfig;
              ArgRepoLink := "" |} = inl newValue))).
Proof.
  cbn zeta. destruct yamlData as [y|]; [| by split].
  unfold SyncYamlFromSource.
  destruct (AutoSync y) eqn:Hauto; cbn [negb]; [| by split].
  destruct (String.eqb_spec (Source y) (SourceFromVariableSet C)) as [Hsrc|Hsrc].
  - unfold syncYamlFromVariableSet. rewrite Hsrc, String.eqb_refl. cbn [negb].
    destruct (VariableSetFind C (SourceID y)) as [vs|e] eqn:Hfind; [| by split].
    destruct (yamlEqual C (VariableYaml vs) curValue) as [[|] [e|]];
      cbn [fst snd]; split; try done.
    intros _. split; [done |]. exists y. split; [done |]. split; [done |].
    left. split; [done |]. by exists vs.
  - unfold syncYamlFromGit.
    destruct (fromGitRepo C (Source y)) eqn:Hgit; cbn [negb]; [| by split].
    destruct (UnMarshalSourceDetail C (SourceDetail y)) as [sd|e] eqn:Hsd;
      [| by split].
    destruct (GitRepoConfig_ sd) as [rc|] eqn:Hrc; [| by split].
    match goal with
    | |- context [DownloadFileFromSource C ?a] =>
        destruct (DownloadFileFromSource C a) as [valuesYAML|e] eqn:Hdl
    end; [| by split].
    destruct (yamlEqual C valuesYAML curValue) as [[|] [e|]];
      cbn [fst snd]; split; try done.
    intros _. split; [done |]. exists y. split; [done |]. split; [done |].
    right. split; [done |]. split; [done |]. by exists sd, rc.
Qed.

End Sync.

Lemma C8_sync_variable_set_witness :
  SyncYamlFromSource demoCollaborators
    (Some {| Source := "variableSet"; AutoSync := true; SourceID := "vs-1";
             SourceDetail := None |})
    "a:   1"
  = (false, "", None)
  /\ SyncYamlFromSource demoCollaborators
       (Some {| Source := "variableSet"; AutoSync := true; SourceID := "vs-1";
                SourceDetail := None |})
       "a: 2"
     = (true, "a: 1", None).
Proof.
  split.
  - exact (proj1 (C8_sync_variable_set demoCollaborators
             {| Source := "variableSet"; AutoSync := true; SourceID := "vs-1";
                SourceDetail := None |} "a:   1" eq_refl eq_refl)).
  - exact (proj1 (C8_sync_variable_set demoCollaborators
             {| Source := "variableSet"; AutoSync := true; SourceID := "vs-1";
                SourceDetail := None |} "a: 2" eq_refl eq_refl)).
Defined.

Lemma C9_sync_result_invariant_witness :
  snd (SyncYamlFromSource demoCollaborators
         (Some {| Source := "repo"; AutoSync := true; SourceID := "";
                  SourceDetail := Some demoRepo |})
         "a: 2") = None
  /\ snd (fst (SyncYamlFromSource demoCollaborators
                 (Some {| Source := "variableSet"; AutoSync := true;
                          SourceID := "vs-2"; SourceDetail := None |})
                 "a: 2")) = "".
Proof.
  split.
  - exact (proj1 (proj2 (C9_sync_result_invariant demoCollaborators
             (Some {| Source := "repo"; AutoSync := true; SourceID := "";
                      SourceDetail := Some demoRepo |}) "a: 2") eq_refl)).
  - exact (proj1 (C9_sync_result_invariant demoCollaborators
             (Some {| Source := "variableSet"; AutoSync := true;
                      SourceID := "vs-2"; SourceDetail := None |}) "a: 2") eq_refl).
Defined.

Lemma omap_all_None {A B : Type} (f : A -> option B) (l : list A) :
  (forall x, x ∈ l -> f x = None) -> omap f l = [].
Proof.
  intros H. rewrite (omap_ext_elem f (fun _ => None) l H).
  clear H. induction l as [|x l IH]; [done | exact IH].
Qed.

Section Merge.
Context {Detail ExtErr : Type}.
Variable C : Collaborators Detail ExtErr.
Variable arg : YamlContentRequestArg.
Variable paths : list string.
Variable isOther : bool.

Local Abbreviation failAt i := (paths !! i ≫= failureOf C arg isOther).
Local Abbreviation okAt i := (paths !! i ≫= contentOf C arg isOther).
Local Abbreviation unitAt sh index :=
  (match paths !! index%nat with
   | Some filePath => fetchUnit C arg index%nat filePath isOther sh
   | None => sh
   end).

(** A unit stores the content under its index when its fetch succeeds and
    appends the wrapped cause when it fails. *)
Lemma fetchUnit_outcome (index : nat) (filePath : string) (sh : Shared ExtErr) :
  fetchUnit C arg index filePath isOther sh
  = match fetchOf C arg isOther filePath with
    | inl fileContent =>
        {| fileContentMap := <[index := fileContent]> (fileContentMap sh);
           errorList := errorList sh |}
    | inr cause =>
        {| fileContentMap := fileContentMap sh;
           errorList := errorList sh ++ [fetchErrorOf C arg isOther filePath cause] |}
    end.
Proof.
  unfold fetchUnit, fetchOf, fetchErrorOf, multierror_Append.
  destruct isOther; cbn [negb]; reflexivity.
Qed.

Lemma unitAt_errorList (sh : Shared ExtErr) (i : nat) :
  errorList (unitAt sh i) = errorList sh ++ option_list (failAt i).
Proof.
  destruct (paths !! i) as [p|]; cbn [mbind option_bind].
  - rewrite fetchUnit_outcome. unfold failureOf.
    destruct (fetchOf C arg isOther p); cbn [errorList option_list];
      [by rewrite app_nil_r | done].
  - cbn [option_list]. by rewrite app_nil_r.
Qed.

Lemma unitAt_lookup (sh : Shared ExtErr) (j i : nat) :
  fileContentMap (unitAt sh j) !! i
  = if decide (i = j)
    then match okAt j with
         | Some fileContent => Some fileContent
         | None => fileContentMap sh !! i
         end
    else fileContentMap sh !! i.
Proof.
  destruct (paths !! j) as [p|]; cbn [mbind option_bind].
  - rewrite fetchUnit_outcome. unfold contentOf.
    destruct (fetchOf C arg isOther p) as [c|e]; cbn [fileContentMap].
    + destruct (decide (i = j)) as [->|Hne];
        [by rewrite lookup_insert_eq | by rewrite lookup_insert_ne].
    + by destruct (decide (i = j)).
  - by destruct (decide (i = j)).
Qed.

(** After the units have written in the order [sched]: the errors are
    those of the failed units in that order, *)
Lemma runUnits_errorList (sched : list nat) (sh : Shared ExtErr) :
  errorList (runUnits C sched arg paths isOther sh)
  = errorList sh ++ omap (fun i => failAt i) sched.
Proof.
  unfold runUnits. revert sh. induction sched as [|i sched IH]; intros sh.
  - cbn. by rewrite app_nil_r.
  - cbn [fold_left]. rewrite IH, unitAt_errorList, <- app_assoc. f_equal.
    cbn [omap list_omap]. by destruct (paths !! i ≫= failureOf C arg isOther).
Qed.

(** and the map holds, under each index in [sched] whose fetch succeeded,
    the content of that path. *)
Lemma runUnits_lookup (sched : list nat) (sh : Shared ExtErr) (i : nat) :
  fileContentMap (runUnits C sched arg paths isOther sh) !! i
  = match okAt i with
    | Some fileContent =>
        if decide (i ∈ sched) then Some fileContent else fileContentMap sh !! i
    | None => fileContentMap sh !! i
    end.
Proof.
  unfold runUnits. revert sh. induction sched as [|j sched IH]; intros sh.
  - cbn [fold_left]. destruct (okAt i); [| done].
    destruct (decide (i ∈ [])) as [Hin|]; [by apply elem_of_nil in Hin | done].
  - cbn [fold_left]. rewrite IH, unitAt_lookup.
    destruct (okAt i) as [c|] eqn:Hi.
    + destruct (decide (i ∈ sched)) as [Hin|Hnin].
      * rewrite decide_True; [done |]. by apply list_elem_of_further.
      * destruct (decide (i = j)) as [->|Hne].
        -- rewrite Hi. rewrite decide_True; [done |]. apply list_elem_of_here.
        -- rewrite decide_False; [done |].
           rewrite elem_of_cons. tauto.
    + destruct (decide (i = j)) as [->|Hne]; [by rewrite Hi | done].
Qed.

Lemma elem_of_schedule (sched : list nat) (i : nat) (p : string) :
  sched ≡ₚ seq 0 (length paths) -> paths !! i = Some p -> i ∈ sched.
Proof.
  intros Hperm Hp. rewrite Hperm. apply elem_of_seq.
  apply lookup_lt_Some in Hp. lia.
Qed.

Lemma GetMergedYamlContent_reaches (sched : list nat) :
  ReachesFetches C arg isOther ->
  GetMergedYamlContent C sched arg paths
  = let sh := runUnits C sched arg paths isOther
                {| fileContentMap := ∅; errorList := [] |} in
    match ErrorOrNil (errorList sh) with
    | Some err => ("", Some err)
    | None => mergeResult C (yamlMerge C (contentArrOf paths (fileContentMap sh)))
    end.
Proof.
  intros (detail & Hhost & -> & Hgit). unfold GetMergedYamlContent. rewrite Hhost.
  destruct (String.eqb (Type_ detail) (SourceFromOther C)); [by rewrite Hgit |].
  reflexivity.
Qed.

(** C6.  When the call gets to its fetches and the fetch of some path
    fails, then, in whatever order the units finish: the returned content
    is empty, and the returned error is a multierror whose entries are,
    up to their order, one per failed path, made of the cause of that
    failure and a message formatted from the path. *)
Theorem C6_failed_fetch_voids_merge (sched : list nat) :
  ReachesFetches C arg isOther ->
  sched ≡ₚ seq 0 (length paths) ->
  (exists p cause, p ∈ paths /\ fetchOf C arg isOther p = inr cause) ->
  exists errs,
    GetMergedYamlContent C sched arg paths = ("", Some (MultiError errs))
    /\ errs = omap (fun i => failAt i) sched
    /\ errs ≡ₚ failuresOf C arg isOther paths
    /\ (forall p cause,
          p ∈ paths -> fetchOf C arg isOther p = inr cause ->
          fetchErrorOf C arg isOther p cause ∈ errs).
Proof.
  intros Hreach Hperm (p & cause & Hp & Hfail).
  exists (omap (fun i => failAt i) sched).
  assert (omap (fun i => failAt i) sched ≡ₚ failuresOf C arg isOther paths) as Hall.
  { rewrite Hperm. unfold failuresOf. by rewrite omap_lookup_seq. }
  assert (forall p cause,
            p ∈ paths -> fetchOf C arg isOther p = inr cause ->
            fetchErrorOf C arg isOther p cause ∈ omap (fun i => failAt i) sched) as Hevery.
  { intros q c Hq Hc. rewrite Hall. unfold failuresOf.
    apply list_elem_of_omap. exists q. split; [done |].
    unfold failureOf. by rewrite Hc. }
  split; [| done].
  rewrite GetMergedYamlContent_reaches by done. cbn zeta.
  rewrite runUnits_errorList. cbn [errorList app].
  pose proof (Hevery p cause Hp Hfail) as Hin.
  destruct (omap (fun i => failAt i) sched) as [|e errs]; [by apply elem_of_nil in Hin | done].
Qed.

(** C7.  When the call gets to its fetches and every fetch succeeds: the
    list given to [yamlutil.Merge] is the list of the contents in the order
    of [paths], one for each path, in whatever order the units finish; so
    two runs that differ in that order only return the same. *)
Theorem C7_merge_order_fixed (sched1 sched2 : list nat) :
  ReachesFetches C arg isOther ->
  (forall p, p ∈ paths -> is_Some (contentOf C arg isOther p)) ->
  sched1 ≡ₚ seq 0 (length paths) ->
  sched2 ≡ₚ seq 0 (length paths) ->
  contentArrOf paths
    (fileContentMap (runUnits C sched1 arg paths isOther
                       {| fileContentMap := ∅; errorList := [] |}))
  = contentsOf C arg isOther paths
  /\ Forall2 (fun p fileContent => fetchOf C arg isOther p = inl fileContent)
       paths (contentsOf C arg isOther paths)
  /\ GetMergedYamlContent C sched1 arg paths
     = mergeResult C (yamlMerge C (contentsOf C arg isOther paths))
  /\ GetMergedYamlContent C sched1 arg paths = GetMergedYamlContent C sched2 arg paths.
Proof.
  intros Hreach Hok Hperm1 Hperm2.
  assert (forall sched, sched ≡ₚ seq 0 (length paths) ->
            contentArrOf paths
              (fileContentMap (runUnits C sched arg paths isOther
                                 {| fileContentMap := ∅; errorList := [] |}))
            = contentsOf C arg isOther paths) as Harr.
  { intros sched Hperm. unfold contentArrOf, contentsOf.
    rewrite <- (omap_lookup_seq (contentOf C arg isOther) paths).
    apply omap_ext_elem. intros i Hi.
    rewrite runUnits_lookup. destruct (okAt i) as [c|] eqn:Hc.
    - rewrite decide_True; [done |]. by rewrite Hperm.
    - apply lookup_empty. }
  assert (forall sched, sched ≡ₚ seq 0 (length paths) ->
            GetMergedYamlContent C sched arg paths
            = mergeResult C (yamlMerge C (contentsOf C arg isOther paths))) as Hrun.
  { intros sched Hperm. rewrite GetMergedYamlContent_reaches by done. cbn zeta.
    rewrite runUnits_errorList, Harr by done. cbn [errorList app].
    rewrite omap_all_None; [done |].
    intros i _. destruct (paths !! i) as [p|] eqn:Hp; [| done].
    cbn [mbind option_bind]. unfold failureOf.
    destruct (Hok p) as [c Hc]; [by eapply list_elem_of_lookup_2 |].
    unfold contentOf in Hc. by destruct (fetchOf C arg isOther p). }
  split; [by apply Harr |]. split; [| split].
  - unfold contentsOf. clear -Hok. induction paths as [|p ps IH]; [constructor |].
    cbn [omap list_omap].
    destruct (Hok p) as [c Hc]; [apply list_elem_of_here |].
    rewrite Hc. constructor.
    + unfold contentOf in Hc. by destruct (fetchOf C arg isOther p); simplify_eq.
    + apply IH. intros q Hq. apply Hok. by apply list_elem_of_further.
  - by apply Hrun.
  - by rewrite !Hrun.
Qed.

(** Whenever the call returns an error, it returns no content. *)
Lemma GetMergedYamlContent_error_no_content (sched : list nat)
    (arg' : YamlContentRequestArg) (paths' : list string) :
  is_Some (snd (GetMergedYamlContent C sched arg' paths')) ->
  fst (GetMergedYamlContent C sched arg' paths') = "".
Proof.
  unfold GetMergedYamlContent.
  destruct (GetCodeHost C (CodehostID arg')) as [detail|e]; [| done].
  match goal with |- context [if ?b then RunGitCmds _ _ _ _ _ _ _ else None] =>
    destruct (if b then RunGitCmds C detail (Namespace arg') (Namespace arg')
                          (Repo arg') (Branch arg') "origin" else None) end;
    [done |].
  destruct (ErrorOrNil _); [done |].
  destruct (yamlMerge C _); [| done].
  cbn [fst snd]. by intros [? ?].
Qed.

End Merge.

Lemma demo_ReachesFetches : ReachesFetches demoCollaborators demoArg false.
Proof.
  exists {| Type_ := "gitlab" |}.
  split; [reflexivity |]. split; [reflexivity | discriminate].
Defined.

Lemma C6_failed_fetch_voids_merge_witness :
  exists errs,
    GetMergedYamlContent demoCollaborators [1; 0] demoArg ["a.yaml"; "b.yaml"]
    = ("", Some (MultiError errs))
    /\ Wrapped "connection reset" "failed to download file from git, path b.yaml"
       ∈ errs.
Proof.
  destruct (C6_failed_fetch_voids_merge demoCollaborators demoArg
              ["a.yaml"; "b.yaml"] false [1; 0] demo_ReachesFetches
              (perm_swap 0 1 []))
    as (errs & Hret & _ & _ & Hevery).
  - exists "b.yaml", "connection reset".
    split; [apply list_elem_of_further, list_elem_of_here | reflexivity].
  - exists errs. split; [exact Hret |].
    apply (Hevery "b.yaml" "connection reset");
      [apply list_elem_of_further, list_elem_of_here | reflexivity].
Defined.

Example GetMergedYamlContent_b_fails :
  GetMergedYamlContent demoCollaborators [1; 0] demoArg ["a.yaml"; "b.yaml"]
  = ("", Some (MultiError
                 [Wrapped "connection reset"
                    "failed to download file from git, path b.yaml"])).
Proof. reflexivity. Qed.

Lemma C7_merge_order_fixed_witness :
  GetMergedYamlContent demoCollaborators [1; 0] demoArg ["a.yaml"; "c.yaml"]
  = ("# a.yaml; # c.yaml", None)
  /\ GetMergedYamlContent demoCollaborators [1; 0] demoArg ["a.yaml"; "c.yaml"]
     = GetMergedYamlContent demoCollaborators [0; 1] demoArg ["a.yaml"; "c.yaml"].
Proof.
  assert (forall p, p ∈ ["a.yaml"; "c.yaml"] ->
                    is_Some (contentOf demoCollaborators demoArg false p)) as Hok.
  { intros p Hp. apply elem_of_cons in Hp as [->|Hp]; [by eexists |].
    apply elem_of_cons in Hp as [->|Hp]; [by eexists |].
    by apply elem_of_nil in Hp. }
  destruct (C7_merge_order_fixed demoCollaborators demoArg ["a.yaml"; "c.yaml"]
              false [1; 0] [0; 1] demo_ReachesFetches Hok
              (perm_swap 0 1 []) (Permutation_refl _))
    as (_ & _ & Hret & Hsame).
  split; [exact Hret | exact Hsame].
Defined.

End RenderSetFacts.

(** * Further properties *)

(** ** Strings *)

Module GoStringsMoreFacts.
Import GoStrings GoStringsFacts GoStringsMore.

Lemma Contains_Occurs (s substr : string) :
  Contains s substr = true <-> Occurs substr s.
Proof.
  induction s as [|c s IH]; cbn [Contains].
  - rewrite orb_false_r, HasPrefix_true. split.
    + intros [t Ht]. exists "", t. exact Ht.
    + intros (a & b & H). destruct a as [|x a]; [by exists b |].
      rewrite app_cons in H. discriminate H.
  - rewrite orb_true_iff, HasPrefix_true, IH. split.
    + intros [[t Ht] | (a & b & ->)].
      * exists "", t. exact Ht.
      * exists (String c a), b. reflexivity.
    + intros (a & b & H). destruct a as [|x a].
      * left. by exists b.
      * rewrite app_cons in H. injection H as _ ->. right. by exists a, b.
Qed.

Lemma not_Contains_Occurs (s substr : string) :
  Contains s substr = false <-> ~ Occurs substr s.
Proof.
  rewrite <- Contains_Occurs. by destruct (Contains s substr).
Qed.

(** Two ways of cutting the same string in two. *)
Lemma str_app_eq_inv (a b c d : string) :
  a +:+ b = c +:+ d ->
  (exists k, a = c +:+ k /\ d = k +:+ b) \/ (exists k, c = a +:+ k /\ b = k +:+ d).
Proof.
  revert c. induction a as [|x a IH]; intros c H.
  - right. exists c. split; [reflexivity | exact H].
  - destruct c as [|y c].
    + left. exists (String x a). split; [reflexivity | by symmetry].
    + rewrite !app_cons in H. injection H as -> H.
      destruct (IH c H) as [(k & -> & ->) | (k & -> & ->)];
        [left | right]; exists k; split; reflexivity.
Qed.

Lemma Occurs_app_l (w a b : string) : Occurs w a -> Occurs w (a +:+ b).
Proof.
  intros (x & y & ->). exists x, (y +:+ b). by rewrite !app_assoc.
Qed.

Lemma Occurs_app_r (w a b : string) : Occurs w b -> Occurs w (a +:+ b).
Proof.
  intros (x & y & ->). exists (a +:+ x), y. by rewrite !app_assoc.
Qed.

Lemma OnlyByte_app_r (c : ascii) (k k' : string) :
  OnlyByte c (k +:+ k') -> OnlyByte c k'.
Proof.
  induction k as [|x k IH]; [done |]. rewrite app_cons. intros [_ H]. by apply IH.
Qed.

(** A string that does not have the byte [c] and occurs in [a ++ m ++ b],
    where the non-empty [m] is made of [c] only, occurs in [a] or in
    [b]. *)
Lemma Occurs_around (c : ascii) (w a m b : string) :
  w <> "" -> m <> "" -> OnlyByte c m -> ~ Occurs (String c "") w ->
  Occurs w (a +:+ m +:+ b) -> Occurs w a \/ Occurs w b.
Proof.
  intros Hw Hm Honly Hc (x & y & H). symmetry in H.
  destruct (str_app_eq_inv _ _ _ _ H) as [(k & Hx & H1) | (k & Ha & H1)].
  - right.
    destruct (str_app_eq_inv _ _ _ _ H1) as [(k' & Hm' & H2) | (k' & Hk & H2)].
    + destruct k' as [|z k'].
      * exists "", y. symmetry. exact H2.
      * exfalso. apply Hc. rewrite Hm' in Honly.
        apply OnlyByte_app_r in Honly as [-> _].
        destruct w as [|d w]; [done |].
        rewrite !app_cons in H2. injection H2 as -> H2.
        exists "", w. reflexivity.
    + exists k', y. exact H2.
  - left. rewrite Ha.
    destruct (str_app_eq_inv _ _ _ _ H1) as [(k' & Hw' & H2) | (k' & Hk & H2)].
    + destruct k' as [|z k'].
      * exists x, "". rewrite Hw'. by rewrite !app_nil_r.
      * exfalso. apply Hc. destruct m as [|d m]; [done |].
        rewrite !app_cons in H2. injection H2 as <- H2.
        destruct Honly as [-> _]. rewrite Hw'. exists k, k'. reflexivity.
    + exists x, k'. by rewrite Hk.
Qed.

Section Clean.
Variables (c : ascii) (mask : string).
Hypothesis mask_nonempty : mask <> "".
Hypothesis mask_only : OnlyByte c mask.

(** Replacing every occurrence of [v] by the mask leaves no [v], when [v]
    does not have the byte of the mask. *)
Lemma ReplacedAll_clean (v s r : string) :
  v <> "" -> ~ Occurs (String c "") v ->
  ReplacedAll v mask s r -> ~ Occurs v r.
Proof.
  intros Hv Hc. induction 1 as [s Hno | a b b' Hfirst _ IH]; [done |].
  intros [Ha | Hb]%(Occurs_around c); try done.
  destruct Ha as (x & y & ->).
  assert (y +:+ v = "") as Hy.
  { apply (Hfirst x (y +:+ v)). by rewrite !app_assoc. }
  apply (f_equal String.length) in Hy. rewrite app_length in Hy.
  destruct v; [done | simpl in Hy; lia].
Qed.

(** And it brings in no string [w] that was not there, when [w] does not
    have the byte of the mask. *)
Lemma ReplacedAll_keeps_absent (w v s r : string) :
  w <> "" -> ~ Occurs (String c "") w ->
  ReplacedAll v mask s r -> ~ Occurs w s -> ~ Occurs w r.
Proof.
  intros Hw Hc. induction 1 as [s Hno | a b b' Hfirst _ IH]; [done |].
  intros Hs [Ha | Hb]%(Occurs_around c); try done.
  - apply Hs. by apply Occurs_app_l.
  - apply IH; [| done]. intros Hb'. apply Hs. by apply Occurs_app_r, Occurs_app_r.
Qed.

End Clean.

End GoStringsMoreFacts.

(** ** SecretMasker *)

Module MaskerExtra.
Import GoStrings GoStringsFacts GoStringsMore GoStringsMoreFacts Masker
  MaskerFacts MaskerVocabulary.

Lemma secretEnvMask_nonempty : secretEnvMask <> "".
Proof. discriminate. Qed.

Lemma secretEnvMask_only : OnlyByte "*" secretEnvMask.
Proof. cbn. tauto. Qed.

Lemma maskSecretEnvs_body_cases (out val : string) :
  maskSecretEnvs_body out val = out \/
  exists v, SecretValue val v
            /\ maskSecretEnvs_body out val = Replace out v secretEnvMask.
Proof.
  destruct (Split val "=") as [|k [|v [|x sl]]] eqn:Hs;
    try (left; apply maskSecretEnvs_body_skip; intros (k' & v' & H & _); congruence).
  destruct (decide (k = "")) as [->|Hk].
  { left. apply maskSecretEnvs_body_skip. intros (k' & v' & H & ? & _). congruence. }
  destruct (decide (v = "")) as [->|Hv].
  { left. apply maskSecretEnvs_body_skip. intros (k' & v' & H & _ & ?). congruence. }
  right. exists v. split; [by exists k |]. by eapply maskSecretEnvs_body_pair.
Qed.

Lemma maskSecretEnvs_body_clean (out val v : string) :
  SecretValue val v -> ~ Occurs "*" v ->
  ~ Occurs v (maskSecretEnvs_body out val).
Proof.
  intros (k & Hs & Hk & Hv) Hstar.
  rewrite (maskSecretEnvs_body_pair _ _ _ _ Hs Hk Hv).
  eapply (ReplacedAll_clean "*" secretEnvMask);
    eauto using secretEnvMask_nonempty, secretEnvMask_only, Replace_ReplacedAll.
Qed.

Lemma maskSecretEnvs_body_keeps_absent (out val w : string) :
  w <> "" -> ~ Occurs "*" w -> ~ Occurs w out ->
  ~ Occurs w (maskSecretEnvs_body out val).
Proof.
  intros Hw Hstar Hout.
  destruct (maskSecretEnvs_body_cases out val) as [-> | (v & (k & _ & _ & Hv) & ->)];
    [done |].
  eapply (ReplacedAll_keeps_absent "*" secretEnvMask);
    eauto using secretEnvMask_nonempty, secretEnvMask_only, Replace_ReplacedAll.
Qed.

Lemma maskSecretEnvs_clean (message : string) (secretEnvs : list string) :
  (forall val v, val ∈ secretEnvs -> SecretValue val v -> ~ Occurs "*" v) ->
  forall val v, val ∈ secretEnvs -> SecretValue val v ->
                ~ Occurs v (maskSecretEnvs message secretEnvs).
Proof.
  induction secretEnvs as [|x envs IH] using rev_ind; intros Hstar val v Hin Hval.
  - by apply elem_of_nil in Hin.
  - rewrite maskSecretEnvs_snoc.
    apply elem_of_app in Hin as [Hin | Hin%list_elem_of_singleton].
    + destruct Hval as (k & Hs & Hk & Hv).
      apply maskSecretEnvs_body_keeps_absent; [done | |].
      * apply (Hstar val v); [apply elem_of_app; by left | by exists k].
      * apply (IH (fun val' v' H => Hstar val' v' (proj2 (elem_of_app _ _ _) (or_introl H)))
                 val v Hin).
        by exists k.
    + subst x. apply maskSecretEnvs_body_clean; [done |].
      apply (Hstar val v); [| done]. apply elem_of_app. right.
      by apply list_elem_of_singleton.
Qed.

Lemma maskSecretEnvs_absent (message : string) (secretEnvs : list string) :
  (forall val v, val ∈ secretEnvs -> SecretValue val v -> ~ Occurs v message) ->
  maskSecretEnvs message secretEnvs = message.
Proof.
  induction secretEnvs as [|x envs IH] using rev_ind; intros Habs; [done |].
  rewrite maskSecretEnvs_snoc, IH.
  2:{ intros val v Hin. apply Habs. apply elem_of_app. by left. }
  destruct (maskSecretEnvs_body_cases message x) as [-> | (v & Hval & ->)]; [done |].
  destruct Hval as (k & Hs & Hk & Hv).
  apply Replace_no_occurrence; [done |].
  apply (Habs x v); [| by exists k].
  apply elem_of_app. right. by apply list_elem_of_singleton.
Qed.

(** X1.  After [maskSecretEnvs], the value of a well-formed secret entry
    occurs nowhere in the text, provided no such value has an asterisk in
    it (the mask is made of asterisks). *)
Theorem X1_maskSecretEnvs_no_value_left (message : string) (secretEnvs : list string)
    (val v : string) :
  (forall val' v', val' ∈ secretEnvs -> SecretValue val' v' -> ~ Occurs "*" v') ->
  val ∈ secretEnvs -> SecretValue val v ->
  ~ Occurs v (maskSecretEnvs message secretEnvs).
Proof. intros Hstar. by apply maskSecretEnvs_clean. Qed.

(** An asterisk in the value is enough to make that fail. *)
Example maskSecretEnvs_asterisk_value :
  maskSecretEnvs "pin: *" ["PIN=*"] = "pin: ********".
Proof. reflexivity. Qed.

Lemma demo_values_clean (val v : string) :
  val ∈ ["KEY=SECRETVAL"; "TOKEN=abc"] -> SecretValue val v -> ~ Occurs "*" v.
Proof.
  intros Hin (k & Hs & _ & _).
  apply elem_of_cons in Hin as [-> | Hin].
  { vm_compute in Hs. injection Hs as _ <-.
    apply not_Contains_Occurs. reflexivity. }
  apply elem_of_cons in Hin as [-> | Hin].
  { vm_compute in Hs. injection Hs as _ <-.
    apply not_Contains_Occurs. reflexivity. }
  by apply elem_of_nil in Hin.
Defined.

Lemma demo_SecretValue : SecretValue "KEY=SECRETVAL" "SECRETVAL".
Proof. exists "KEY". split; [reflexivity |]. split; discriminate. Defined.

Lemma X1_maskSecretEnvs_no_value_left_witness :
  ~ Occurs "SECRETVAL"
      (maskSecretEnvs "export KEY=SECRETVAL; echo abcSECRETVAL"
         ["KEY=SECRETVAL"; "TOKEN=abc"]).
Proof.
  apply (X1_maskSecretEnvs_no_value_left _ ["KEY=SECRETVAL"; "TOKEN=abc"]
           "KEY=SECRETVAL" "SECRETVAL" demo_values_clean).
  - apply list_elem_of_here.
  - exact demo_SecretValue.
Defined.

(** X2.  A text in which the value of no well-formed entry occurs comes
    out of [maskSecretEnvs] as it went in. *)
Theorem X2_maskSecretEnvs_without_values (message : string) (secretEnvs : list string) :
  (forall val v, val ∈ secretEnvs -> SecretValue val v -> ~ Occurs v message) ->
  maskSecretEnvs message secretEnvs = message.
Proof. apply maskSecretEnvs_absent. Qed.

Lemma X2_maskSecretEnvs_without_values_witness :
  maskSecretEnvs "go build ./..." ["KEY=SECRETVAL"] = "go build ./...".
Proof.
  apply X2_maskSecretEnvs_without_values.
  intros val v Hin (k & Hs & _ & _).
  apply elem_of_cons in Hin as [-> | Hin]; [| by apply elem_of_nil in Hin].
  vm_compute in Hs. injection Hs as _ <-.
  apply not_Contains_Occurs. reflexivity.
Defined.

(** X3.  Masking what has been masked changes nothing, provided no value
    of a well-formed entry has an asterisk in it. *)
Theorem X3_maskSecretEnvs_idempotent (message : string) (secretEnvs : list string) :
  (forall val v, val ∈ secretEnvs -> SecretValue val v -> ~ Occurs "*" v) ->
  maskSecretEnvs (maskSecretEnvs message secretEnvs) secretEnvs
  = maskSecretEnvs message secretEnvs.
Proof.
  intros Hstar. apply maskSecretEnvs_absent.
  intros val v. by apply maskSecretEnvs_clean.
Qed.

Example maskSecretEnvs_asterisk_not_idempotent :
  maskSecretEnvs (maskSecretEnvs "pin: *" ["PIN=*"]) ["PIN=*"]
  <> maskSecretEnvs "pin: *" ["PIN=*"].
Proof. vm_compute. discriminate. Qed.

Lemma X3_maskSecretEnvs_idempotent_witness :
  maskSecretEnvs
    (maskSecretEnvs "export KEY=SECRETVAL" ["KEY=SECRETVAL"; "TOKEN=abc"])
    ["KEY=SECRETVAL"; "TOKEN=abc"]
  = maskSecretEnvs "export KEY=SECRETVAL" ["KEY=SECRETVAL"; "TOKEN=abc"].
Proof. exact (X3_maskSecretEnvs_idempotent _ _ demo_values_clean). Defined.

(** *** [maskSecret] *)

Lemma maskSecret_snoc (secrets : list string) (val message : string) :
  maskSecret (secrets ++ [val]) message
  = maskSecret_body (maskSecret secrets message) val.
Proof. unfold maskSecret. by rewrite fold_left_app. Qed.

Lemma maskSecret_body_cases (out val : string) :
  (val = "" /\ maskSecret_body out val = out) \/
  (val <> "" /\ maskSecret_body out val = Replace out val secretEnvMask).
Proof. destruct val; [by left | by right]. Qed.

(** X4.  After [maskSecret], no non-empty secret of the list occurs in the
    text, provided no secret of the list has an asterisk in it. *)
Theorem X4_maskSecret_no_secret_left (secrets : list string) (message val : string) :
  (forall val', val' ∈ secrets -> ~ Occurs "*" val') ->
  val ∈ secrets -> val <> "" ->
  ~ Occurs val (maskSecret secrets message).
Proof.
  induction secrets as [|x secrets IH] using rev_ind; intros Hstar Hin Hval.
  - by apply elem_of_nil in Hin.
  - rewrite maskSecret_snoc.
    assert (~ Occurs "*" val) as Hclean by by apply Hstar.
    apply elem_of_app in Hin as [Hin | Hin%list_elem_of_singleton].
    + assert (~ Occurs val (maskSecret secrets message)) as Hprev.
      { apply IH; [| done | done]. intros v Hv. apply Hstar, elem_of_app. by left. }
      destruct (maskSecret_body_cases (maskSecret secrets message) x)
        as [[_ ->] | [Hx ->]]; [done |].
      eapply (ReplacedAll_keeps_absent "*" secretEnvMask);
        eauto using secretEnvMask_nonempty, secretEnvMask_only, Replace_ReplacedAll.
    + subst x.
      destruct (maskSecret_body_cases (maskSecret secrets message) val)
        as [[? _] | [_ ->]]; [done |].
      eapply (ReplacedAll_clean "*" secretEnvMask);
        eauto using secretEnvMask_nonempty, secretEnvMask_only, Replace_ReplacedAll.
Qed.

Lemma X4_maskSecret_no_secret_left_witness :
  ~ Occurs "token123" (maskSecret [""; "token123"] "token123 visiting token123").
Proof.
  apply X4_maskSecret_no_secret_left.
  - intros v Hin.
    apply elem_of_cons in Hin as [-> | Hin];
      [apply not_Contains_Occurs; reflexivity |].
    apply elem_of_cons in Hin as [-> | Hin];
      [apply not_Contains_Occurs; reflexivity |].
    by apply elem_of_nil in Hin.
  - apply list_elem_of_further, list_elem_of_here.
  - discriminate.
Defined.

(** *** The two modes *)

Lemma valueOf_SecretValue (val v : string) :
  valueOf val = Some v <-> SecretValue val v.
Proof.
  unfold valueOf, SecretValue. split.
  - destruct (Split val "=") as [|k [|v' [|x sl]]]; try done.
    destruct k as [|ck k]; [done |]. destruct v' as [|cv v']; [done |].
    cbn. intros [= <-]. by exists (String ck k).
  - intros (k & -> & Hk & Hv). destruct k; [done |]. by destruct v.
Qed.

Lemma maskSecretEnvs_body_valueOf (out val : string) :
  maskSecretEnvs_body out val
  = match valueOf val with
    | Some v => maskSecret_body out v
    | None => out
    end.
Proof.
  destruct (valueOf val) as [v|] eqn:Hv.
  - apply valueOf_SecretValue in Hv as (k & Hs & Hk & Hv).
    rewrite (maskSecretEnvs_body_pair _ _ _ _ Hs Hk Hv). by destruct v.
  - apply maskSecretEnvs_body_skip. intros (k & v & Hs & Hk & Hv').
    assert (valueOf val = Some v) as Hsome by (apply valueOf_SecretValue; by exists k).
    congruence.
Qed.

(** X23.  The key=value mode is the literal mode on the values:
    [maskSecretEnvs] on a list of entries does what [maskSecret] does on
    the list of the values of the well-formed entries, in the same
    order. *)
Theorem X23_maskSecretEnvs_is_maskSecret_on_values (message : string)
    (secretEnvs : list string) :
  maskSecretEnvs message secretEnvs = maskSecret (omap valueOf secretEnvs) message
  /\ forall val v, v ∈ omap valueOf [val] <-> SecretValue val v.
Proof.
  split.
  - revert message. induction secretEnvs as [|val envs IH]; intros message; [done |].
    change (maskSecretEnvs message (val :: envs))
      with (maskSecretEnvs (maskSecretEnvs_body message val) envs).
    rewrite IH, maskSecretEnvs_body_valueOf. cbn [omap list_omap].
    by destruct (valueOf val).
  - intros val v. rewrite <- valueOf_SecretValue. cbn [omap list_omap].
    destruct (valueOf val) as [v'|].
    + rewrite list_elem_of_singleton. split; [by intros -> | by intros [= ->]].
    + split; [by intros H%elem_of_nil | done].
Qed.

End MaskerExtra.

(** ** OutputRedactor *)

Module RedactorExtra.
Import GoStrings GoStringsFacts GoStringsMore GoStringsMoreFacts Masker
  MaskerVocabulary Redactor RedactorVocabulary.

(** *** [Split] on a one-byte separator *)

Section SplitByte.
Variable d : ascii.

Lemma Split_byte_cons (c : ascii) (s : string) :
  Split (String c s) (String d "") =
  if Ascii.eqb d c then "" :: Split s (String d "")
  else cons_head c (Split s (String d "")).
Proof. unfold Split. cbn [split_from HasPrefix]. by destruct (Ascii.eqb d c). Qed.

Lemma Split_byte_nonempty (s : string) : Split s (String d "") <> [].
Proof.
  destruct s as [|c s]; [done |]. rewrite Split_byte_cons.
  destruct (Ascii.eqb d c); [done |]. by destruct (Split s (String d "")).
Qed.

Lemma cons_head_app (c : ascii) (l1 l2 : list string) :
  l1 <> [] -> cons_head c (l1 ++ l2) = cons_head c l1 ++ l2.
Proof. by destruct l1. Qed.

(** Splitting what has a separator in the middle is splitting the two
    sides. *)
Lemma Split_byte_app (a b : string) :
  Split (a +:+ String d b) (String d "")
  = Split a (String d "") ++ Split b (String d "").
Proof.
  induction a as [|c a IH].
  - rewrite app_nil_l, Split_byte_cons, Ascii.eqb_refl. reflexivity.
  - rewrite app_cons, !Split_byte_cons, IH. destruct (Ascii.eqb d c); [done |].
    apply cons_head_app, Split_byte_nonempty.
Qed.

Lemma Occurs_byte_cons (c : ascii) (s : string) :
  Occurs (String d "") (String c s) <-> c = d \/ Occurs (String d "") s.
Proof.
  split.
  - intros (a & b & Heq). destruct a as [|c' a].
    + rewrite app_nil_l, app_cons in Heq. injection Heq as -> _. by left.
    + rewrite app_cons in Heq. injection Heq as _ ->. right. by exists a, b.
  - intros [-> | (a & b & ->)].
    + by exists "", s.
    + by exists (String c a), b.
Qed.

Lemma Split_byte_none (s : string) :
  ~ Occurs (String d "") s -> Split s (String d "") = [s].
Proof.
  induction s as [|c s IH]; [done |].
  rewrite Split_byte_cons, Occurs_byte_cons. intros Hno.
  destruct (Ascii.eqb_spec d c) as [<-|Hne]; [tauto |].
  rewrite IH by tauto. reflexivity.
Qed.

(** No piece has the separator in it. *)
Lemma Split_byte_pieces (s : string) :
  Forall (fun piece => ~ Occurs (String d "") piece) (Split s (String d "")).
Proof.
  induction s as [|c s IH].
  - constructor; [| constructor]. intros H%Occurs_length. simpl in H. lia.
  - rewrite Split_byte_cons. destruct (Ascii.eqb_spec d c) as [<-|Hne].
    + constructor; [| done]. intros H%Occurs_length. simpl in H. lia.
    + pose proof (Split_byte_nonempty s) as Hnil.
      destruct (Split s (String d "")) as [|h t]; [done |].
      apply Forall_cons in IH as [Hh Ht]. constructor; [| done].
      rewrite Occurs_byte_cons. intros [-> | H]; done.
Qed.

Lemma Join_cons_head (c : ascii) (h : string) (t : list string) (sep : string) :
  Join (String c h :: t) sep = String c (Join (h :: t) sep).
Proof. by destruct t. Qed.

(** Joining the pieces with the separator gives the string back. *)
Lemma Join_Split_byte (s : string) :
  Join (Split s (String d "")) (String d "") = s.
Proof.
  induction s as [|c s IH]; [done |]. rewrite Split_byte_cons.
  pose proof (Split_byte_nonempty s) as Hnil.
  destruct (Ascii.eqb_spec d c) as [<-|Hne];
    destruct (Split s (String d "")) as [|h t]; try done.
  - cbn [Join]. cbn [Join] in IH. by rewrite IH.
  - cbn [cons_head]. by rewrite Join_cons_head, IH.
Qed.

Lemma Join_snoc (init : list string) (lst : string) :
  Join (init ++ [lst]) (String d "")
  = concatAll (map (fun l => l +:+ String d "") init) +:+ lst.
Proof.
  induction init as [|x init IH]; [done |].
  cbn [app map concatAll fold_right]. fold (concatAll (map (fun l => l +:+ String d "") init)).
  rewrite app_assoc, app_assoc, <- IH.
  by destruct (init ++ [lst]) eqn:E; [destruct init |].
Qed.

End SplitByte.

(** *** The lines of a stream *)

Lemma readLines_tail (c tail : string) :
  c = "" \/ (exists c', c = c' +:+ LF) ->
  ~ Occurs LF tail ->
  readLines (c +:+ tail) = readLines c.
Proof.
  intros Hc Htail. unfold readLines, LF in *. destruct Hc as [-> | [c' ->]].
  - rewrite app_nil_l, (Split_byte_none _ _ Htail). reflexivity.
  - rewrite app_assoc, app_cons, app_nil_l, !Split_byte_app.
    rewrite (Split_byte_none _ _ Htail).
    change (Split "" (String "010" "")) with [""].
    by rewrite !removelast_last.
Qed.

Lemma readLines_content (content : string) :
  exists rest,
    ~ Occurs LF rest /\ content = concatAll (readLines content) +:+ rest.
Proof.
  unfold readLines, LF.
  pose proof (Join_Split_byte "010" content) as Hjoin.
  pose proof (Split_byte_pieces "010" content) as Hpieces.
  pose proof (Split_byte_nonempty "010" content) as Hnil.
  destruct (Split content (String "010" "")) as [|x l _] using rev_ind; [done |].
  exists x. rewrite removelast_last. split.
  - rewrite Forall_app, Forall_singleton in Hpieces. exact (proj2 Hpieces).
  - by rewrite <- Join_snoc.
Qed.

Section Stream.
Context {ExtErr World : Type}.
Variable WriteFile : string -> string -> N -> World -> option ExtErr * World.

Lemma handleLine_printed (needPersistentLog : bool) (logFile : string)
    (secretEnvs : list string) (st : State ExtErr World) (lineBytes : string) :
  printed (events (handleLine WriteFile needPersistentLog logFile secretEnvs st lineBytes))
  = printed (events st) ++ [maskSecretEnvs lineBytes secretEnvs].
Proof.
  unfold handleLine. destruct needPersistentLog; cbn [emit world events].
  - destruct (WriteFile logFile lineBytes 448%N (world st)) as [[e|] w];
      cbn [emit world events]; unfold printed; rewrite !omap_app;
      cbn; by rewrite ?List.app_nil_r.
  - unfold printed. by rewrite omap_app.
Qed.

Lemma handleLine_written (needPersistentLog : bool) (logFile : string)
    (secretEnvs : list string) (st : State ExtErr World) (lineBytes : string) :
  written (events (handleLine WriteFile needPersistentLog logFile secretEnvs st lineBytes))
  = written (events st) ++ (if needPersistentLog then [(logFile, lineBytes)] else []).
Proof.
  unfold handleLine. destruct needPersistentLog; cbn [emit world events].
  - destruct (WriteFile logFile lineBytes 448%N (world st)) as [[e|] w];
      cbn [emit world events]; unfold written; rewrite !omap_app;
      cbn; by rewrite ?List.app_nil_r.
  - unfold written. rewrite omap_app. cbn. by rewrite !List.app_nil_r.
Qed.

Lemma handleLines_printed (needPersistentLog : bool) (logFile : string)
    (secretEnvs lines : list string) (st : State ExtErr World) :
  printed (events (fold_left (handleLine WriteFile needPersistentLog logFile secretEnvs)
                             lines st))
  = printed (events st) ++ map (fun l => maskSecretEnvs l secretEnvs) lines.
Proof.
  revert st. induction lines as [|l lines IH]; intros st; cbn [fold_left map].
  - by rewrite List.app_nil_r.
  - by rewrite IH, handleLine_printed, <- List.app_assoc.
Qed.

Lemma handleLines_written (needPersistentLog : bool) (logFile : string)
    (secretEnvs lines : list string) (st : State ExtErr World) :
  written (events (fold_left (handleLine WriteFile needPersistentLog logFile secretEnvs)
                             lines st))
  = written (events st)
    ++ (if needPersistentLog then map (fun l => (logFile, l)) lines else []).
Proof.
  revert st. induction lines as [|l lines IH]; intros st; cbn [fold_left map].
  - destruct needPersistentLog; by rewrite List.app_nil_r.
  - rewrite IH, handleLine_written, <- List.app_assoc.
    by destruct needPersistentLog.
Qed.

Lemma handleLines_world_off (logFile : string) (secretEnvs lines : list string)
    (st : State ExtErr World) :
  world (fold_left (handleLine WriteFile false logFile secretEnvs) lines st) = world st.
Proof.
  revert st. induction lines as [|l lines IH]; intros st; [done |].
  cbn [fold_left]. by rewrite IH.
Qed.

Lemma handleCmdOutput_fold (pipe : Pipe ExtErr) (needPersistentLog : bool)
    (logFile : string) (secretEnvs : list string) (st : State ExtErr World) :
  let st' := fold_left (handleLine WriteFile needPersistentLog logFile secretEnvs)
               (readLines (content pipe)) st in
  printed (events (handleCmdOutput WriteFile pipe needPersistentLog logFile secretEnvs st))
  = printed (events st')
  /\ written (events (handleCmdOutput WriteFile pipe needPersistentLog logFile secretEnvs st))
     = written (events st')
  /\ world (handleCmdOutput WriteFile pipe needPersistentLog logFile secretEnvs st)
     = world st'.
Proof.
  unfold handleCmdOutput. destruct (ending pipe); cbn [emit world events]; [done |].
  unfold printed, written. rewrite !omap_app. cbn. by rewrite !List.app_nil_r.
Qed.

(** X5.  Whatever the stream, its end and the fate of the writes: standard
    output gets the lines of the stream that end in a line feed, each
    masked, in the order of the stream, and nothing else. *)
Theorem X5_stdout_is_masked_lines (pipe : Pipe ExtErr) (needPersistentLog : bool)
    (logFile : string) (secretEnvs : list string) (st : State ExtErr World) :
  printed (events (handleCmdOutput WriteFile pipe needPersistentLog logFile secretEnvs st))
  = printed (events st)
    ++ map (fun l => maskSecretEnvs l secretEnvs) (readLines (content pipe)).
Proof.
  destruct (handleCmdOutput_fold pipe needPersistentLog logFile secretEnvs st)
    as (-> & _ & _).
  apply handleLines_printed.
Qed.

(** X6.  With persistence on, [util.WriteFile] is called once for every
    line that ends in a line feed, in the order of the stream, on the log
    file, whether or not earlier calls failed; with persistence off it is
    not called and the outside is left as it was. *)
Theorem X6_one_write_per_line (pipe : Pipe ExtErr) (logFile : string)
    (secretEnvs : list string) (st : State ExtErr World) :
  written (events (handleCmdOutput WriteFile pipe true logFile secretEnvs st))
  = written (events st) ++ map (fun l => (logFile, l)) (readLines (content pipe))
  /\ written (events (handleCmdOutput WriteFile pipe false logFile secretEnvs st))
     = written (events st)
  /\ world (handleCmdOutput WriteFile pipe false logFile secretEnvs st) = world st.
Proof.
  destruct (handleCmdOutput_fold pipe true logFile secretEnvs st) as (_ & -> & _).
  destruct (handleCmdOutput_fold pipe false logFile secretEnvs st) as (_ & -> & ->).
  rewrite !handleLines_written, handleLines_world_off. by rewrite List.app_nil_r.
Qed.

(** X7.  What the stream carries after its last line feed is neither
    printed nor written: the call does the same with and without it. *)
Theorem X7_unterminated_tail_dropped (c tail : string) (e : ReadEnd ExtErr)
    (needPersistentLog : bool) (logFile : string) (secretEnvs : list string)
    (st : State ExtErr World) :
  c = "" \/ (exists c', c = c' +:+ LF) ->
  ~ Occurs LF tail ->
  handleCmdOutput WriteFile {| content := c +:+ tail; ending := e |}
    needPersistentLog logFile secretEnvs st
  = handleCmdOutput WriteFile {| content := c; ending := e |}
      needPersistentLog logFile secretEnvs st.
Proof.
  intros Hc Htail. unfold handleCmdOutput. cbn [content ending].
  by rewrite readLines_tail.
Qed.

Lemma concatAll_app (l1 l2 : list string) :
  concatAll (l1 ++ l2) = concatAll l1 +:+ concatAll l2.
Proof.
  induction l1 as [|x l1 IH]; [done |].
  cbn [app concatAll fold_right]. fold (concatAll (l1 ++ l2)) (concatAll l1).
  by rewrite IH, app_assoc.
Qed.

(** X8.  The lines of the stream partition it: put end to end they give
    the stream back, up to a rest that has no line feed.  So with no
    secrets to mask, what standard output gets is the stream itself, less
    what follows its last line feed. *)
Theorem X8_stdout_is_the_stream (pipe : Pipe ExtErr) (needPersistentLog : bool)
    (logFile : string) (st : State ExtErr World) :
  exists rest,
    ~ Occurs LF rest /\
    concatAll (printed (events (handleCmdOutput WriteFile pipe needPersistentLog
                                  logFile [] st))) +:+ rest
    = concatAll (printed (events st)) +:+ content pipe.
Proof.
  destruct (readLines_content (content pipe)) as (rest & Hrest & Heq).
  exists rest. split; [done |].
  destruct (handleCmdOutput_fold pipe needPersistentLog logFile [] st) as (-> & _ & _).
  rewrite handleLines_printed, concatAll_app, app_assoc.
  rewrite (map_ext _ id) by done. by rewrite map_id, <- Heq.
Qed.

(** X9.  No text that the call sends to standard output has in it the
    value of a well-formed secret entry, provided no such value has an
    asterisk in it. *)
Theorem X9_stdout_has_no_value (pipe : Pipe ExtErr) (needPersistentLog : bool)
    (logFile : string) (secretEnvs : list string) (st : State ExtErr World)
    (val v text : string) :
  (forall val' v', val' ∈ secretEnvs -> SecretValue val' v' -> ~ Occurs "*" v') ->
  val ∈ secretEnvs -> SecretValue val v ->
  text ∈ printed (events (handleCmdOutput WriteFile pipe needPersistentLog logFile
                            secretEnvs st)) ->
  text ∈ printed (events st) \/ ~ Occurs v text.
Proof.
  intros Hstar Hin Hval.
  destruct (handleCmdOutput_fold pipe needPersistentLog logFile secretEnvs st)
    as (-> & _ & _).
  rewrite handleLines_printed, elem_of_app, list_elem_of_fmap.
  intros [Hold | (l & -> & _)]; [by left | right].
  exact (MaskerExtra.maskSecretEnvs_clean l secretEnvs Hstar val v Hin Hval).
Qed.

End Stream.

Lemma X7_unterminated_tail_dropped_witness :
  handleCmdOutput appendFile
    {| content := ("ok" +:+ LF) +:+ "BUILD FAILED"; ending := EOF |}
    true "job.log" [] {| world := ∅; events := [] |}
  = handleCmdOutput appendFile {| content := "ok" +:+ LF; ending := EOF |}
      true "job.log" [] {| world := ∅; events := [] |}.
Proof.
  apply X7_unterminated_tail_dropped.
  - right. by exists "ok".
  - apply not_Contains_Occurs. reflexivity.
Defined.

Lemma X9_stdout_has_no_value_witness :
  "export KEY=********" +:+ LF
    ∈ printed (@events string _ {| world := (∅ : gmap string string); events := [] |})
  \/ ~ Occurs "SECRETVAL" ("export KEY=********" +:+ LF).
Proof.
  apply (X9_stdout_has_no_value appendFile
           {| content := "export KEY=SECRETVAL" +:+ LF; ending := EOF |}
           true "job.log" ["KEY=SECRETVAL"; "TOKEN=abc"]
           {| world := ∅; events := [] |} "KEY=SECRETVAL" "SECRETVAL"
           _ MaskerExtra.demo_values_clean).
  - apply list_elem_of_here.
  - exact MaskerExtra.demo_SecretValue.
  - vm_compute. apply list_elem_of_here.
Defined.

End RedactorExtra.

(** ** StepRunner *)

Module RunnerExtra.
Import Runner RunnerFacts RunnerVocabulary.

Section Run.
Context {Payload ExtErr World : Type}.
Variable X : Executors Payload ExtErr World.
Variables workspace paths : string.
Variables envs secretEnvs : list string.
Variable st0 : IO Payload ExtErr World.

Local Abbreviation stateAfter := (stateAfter X workspace paths envs secretEnvs st0).
Local Abbreviation runStepAfter := (runStepAfter X workspace paths envs secretEnvs st0).
Local Abbreviation Dispatched := (Dispatched X workspace paths envs secretEnvs st0).
Local Abbreviation FailedBefore := (FailedBefore X workspace paths envs secretEnvs st0).
Local Abbreviation body := (RunSteps_body X workspace paths envs secretEnvs).
Local Abbreviation loop := (RunSteps_loop X workspace paths envs secretEnvs).
Local Abbreviation guard ls s := (hasFailed ls && negb (Onfailure s)).

Lemma loop_cons (s : Step Payload) (rest : list (Step Payload))
    (ls : LoopState Payload ExtErr World) :
  loop (s :: rest) ls = loop rest (body ls s).
Proof. reflexivity. Qed.

(** Once up, the flag is up for the rest of the loop. *)
Lemma hasFailed_loop (post : list (Step Payload)) (ls : LoopState Payload ExtErr World) :
  hasFailed ls = true -> hasFailed (loop post ls) = true.
Proof.
  revert ls. induction post as [|s post IH]; intros ls H; [done |].
  rewrite loop_cons. by apply IH, hasFailed_body.
Qed.

Lemma success_prefix (pre post : list (Step Payload)) :
  hasFailed (stateAfter (pre ++ post)) = false -> hasFailed (stateAfter pre) = false.
Proof.
  rewrite (stateAfter_app X workspace paths envs secretEnvs st0). intros H.
  apply not_true_iff_false. intros Hpre.
  by rewrite (hasFailed_loop post _ Hpre) in H.
Qed.

Lemma success_step (pre : list (Step Payload)) (s : Step Payload) :
  hasFailed (stateAfter (pre ++ [s])) = false ->
  guard (stateAfter pre) s = false /\ fst (runStepAfter pre s) = None.
Proof.
  intros H. pose proof (success_prefix pre [s] H) as Hpre.
  assert (guard (stateAfter pre) s = false) as Hg by by rewrite Hpre.
  split; [done |].
  rewrite (stateAfter_snoc X workspace paths envs secretEnvs st0) in H.
  rewrite (body_run X workspace paths envs secretEnvs _ _ Hg) in H.
  unfold Runner.runStepAfter.
  by destruct (fst (runStep X s workspace paths envs secretEnvs (io (stateAfter pre)))).
Qed.

(** X10.  When [RunSteps] returns nil, every step of the list was
    dispatched, and succeeded. *)
Theorem X10_success_runs_every_step (steps pre post : list (Step Payload))
    (s : Step Payload) :
  fst (RunSteps X steps workspace paths envs secretEnvs st0) = None ->
  steps = pre ++ s :: post ->
  Dispatched pre s /\ fst (runStepAfter pre s) = None.
Proof.
  unfold RunSteps. cbn [fst].
  change (RunSteps_loop X workspace paths envs secretEnvs steps (RunSteps_init st0))
    with (stateAfter steps).
  intros Hnil ->.
  apply (respErr_iff X workspace paths envs secretEnvs st0) in Hnil.
  rewrite (cons_middle s pre post), app_assoc in Hnil.
  apply success_prefix, success_step in Hnil as [Hg Hr].
  split; [| done].
  by apply (Dispatched_iff_guard X workspace paths envs secretEnvs st0).
Qed.

(** With the flag up, the loop does with a list what it does with the
    steps of the list that have [Onfailure] set. *)
Lemma loop_filter (post : list (Step Payload)) (ls : LoopState Payload ExtErr World) :
  hasFailed ls = true ->
  loop post ls = loop (List.filter Onfailure post) ls.
Proof.
  revert ls. induction post as [|s post IH]; intros ls H; [done |].
  cbn [List.filter]. destruct (Onfailure s) eqn:Hon.
  - rewrite !loop_cons. by apply IH, hasFailed_body.
  - rewrite loop_cons.
    rewrite (body_skip X workspace paths envs secretEnvs ls s) by by rewrite H, Hon.
    by apply IH.
Qed.

(** X11.  Once a step has been dispatched and has failed, the steps after
    it that do not have [Onfailure] set count for nothing: the run returns
    the same, and does the same to the outside, as the run without
    them. *)
Theorem X11_after_failure_only_onfailure_steps (pre post : list (Step Payload)) :
  FailedBefore pre ->
  RunSteps X (pre ++ post) workspace paths envs secretEnvs st0
  = RunSteps X (pre ++ List.filter Onfailure post) workspace paths envs secretEnvs st0.
Proof.
  intros Hf%(hasFailed_iff X workspace paths envs secretEnvs st0).
  unfold RunSteps.
  change (RunSteps_loop X workspace paths envs secretEnvs (pre ++ post)
            (RunSteps_init st0)) with (stateAfter (pre ++ post)).
  change (RunSteps_loop X workspace paths envs secretEnvs
            (pre ++ List.filter Onfailure post) (RunSteps_init st0))
    with (stateAfter (pre ++ List.filter Onfailure post)).
  rewrite !(stateAfter_app X workspace paths envs secretEnvs st0).
  by rewrite (loop_filter post _ Hf).
Qed.

Lemma dispatch_success (k : StepKind) (spec : Payload)
    (new : World -> (StepInstance ExtErr World + ExtErr) * World)
    (st : IO Payload ExtErr World) :
  fst (dispatch k spec new st) = None ->
  calls (snd (dispatch k spec new st)) = calls st ++ [CallNew k spec; CallRun k].
Proof.
  unfold dispatch. destruct (new (world st)) as [[inst|e] w1]; [| done].
  destruct (Run inst w1) as [[e|] w2]; [done |]. cbn [fst snd calls]. intros _.
  by rewrite <- List.app_assoc.
Qed.

Lemma runStep_success (s : Step Payload) (st : IO Payload ExtErr World) :
  fst (runStep X s workspace paths envs secretEnvs st) = None ->
  exists k,
    kindOfType (StepType s) = Some k /\
    calls (snd (runStep X s workspace paths envs secretEnvs st))
    = calls st ++ [CallNew k (Spec s); CallRun k].
Proof.
  destruct (kindOfType (StepType s)) as [k|] eqn:Hk.
  - rewrite (runStep_known X workspace paths envs secretEnvs _ _ _ Hk). intros H.
    exists k. split; [done |]. by apply dispatch_success.
  - by rewrite (runStep_unknown X workspace paths envs secretEnvs _ _ Hk).
Qed.

Lemma constructed_app (cs1 cs2 : list (Call Payload ExtErr)) :
  constructed (cs1 ++ cs2) = constructed cs1 ++ constructed cs2.
Proof. apply omap_app. Qed.

(** X12.  When [RunSteps] returns nil, the type of every step is one the
    switch knows, and the constructors called during the run are those of
    the steps, each with the spec of its step, one per step in the order
    of the list. *)
Theorem X12_success_constructs_in_order (steps : list (Step Payload)) :
  fst (RunSteps X steps workspace paths envs secretEnvs st0) = None ->
  Forall (fun s => StepType s ∈ stepTypes) steps /\
  constructed (calls (snd (RunSteps X steps workspace paths envs secretEnvs st0)))
  = constructed (calls st0) ++ omap kindAndSpec steps /\
  length (omap kindAndSpec steps) = length steps.
Proof.
  unfold RunSteps. cbn [fst snd].
  change (RunSteps_loop X workspace paths envs secretEnvs steps (RunSteps_init st0))
    with (stateAfter steps).
  intros Hnil%(respErr_iff X workspace paths envs secretEnvs st0).
  induction steps as [|s steps IH] using rev_ind.
  - split; [constructor |]. split; [| done]. cbn. by rewrite List.app_nil_r.
  - destruct (IH (success_prefix _ _ Hnil)) as (Hknown & Hcalls & Hlen).
    destruct (success_step _ _ Hnil) as [Hg Hr].
    destruct (runStep_success s _ Hr) as (k & Hk & Hnew).
    rewrite (stateAfter_snoc X workspace paths envs secretEnvs st0).
    rewrite (body_run X workspace paths envs secretEnvs _ _ Hg).
    unfold Runner.runStepAfter in Hr. rewrite Hr. cbn [io].
    rewrite Hnew, constructed_app, Hcalls, omap_app, length_app, Hlen.
    assert (omap kindAndSpec [s] = [(k, Spec s)]) as ->.
    { cbn. unfold kindAndSpec. by rewrite Hk. }
    split; [| split].
    + apply Forall_app. split; [done |]. apply Forall_singleton.
      apply kindOfType_stepTypes. by rewrite Hk.
    + by rewrite <- List.app_assoc.
    + rewrite length_app. reflexivity.
Qed.

End Run.

Lemma X10_success_runs_every_step_witness :
  Dispatched demoExecutors "/workspace" "" [] [] demoStart [stepA] stepD
  /\ fst (runStepAfter demoExecutors "/workspace" "" [] [] demoStart [stepA] stepD)
     = None.
Proof.
  apply (X10_success_runs_every_step demoExecutors "/workspace" "" [] [] demoStart
           [stepA; stepD] [stepA] [] stepD); reflexivity.
Defined.

Lemma X11_after_failure_only_onfailure_steps_witness :
  RunSteps demoExecutors ([stepA; stepB] ++ [stepC; stepD]) "/workspace" "" [] []
    demoStart
  = RunSteps demoExecutors ([stepA; stepB] ++ List.filter Onfailure [stepC; stepD])
      "/workspace" "" [] [] demoStart.
Proof.
  apply X11_after_failure_only_onfailure_steps.
  exists [stepA], stepB, [], (ExecutorError "exit status 1").
  split; [reflexivity | exact demo_FailsAt_B].
Defined.

Lemma X12_success_constructs_in_order_witness :
  constructed (calls (snd (RunSteps demoExecutors [stepA; stepC; stepD]
                             "/workspace" "" [] [] demoStart)))
  = constructed (calls demoStart)
    ++ omap kindAndSpec [stepA; stepC; stepD].
Proof.
  exact (proj1 (proj2 (X12_success_constructs_in_order demoExecutors "/workspace" ""
                         [] [] demoStart [stepA; stepC; stepD] eq_refl))).
Defined.

End RunnerExtra.

(** ** [renderset.go], further *)

Module RenderSetExtra.
Import RenderSet RenderSetFacts.

Section Merge.
Context {Detail ExtErr : Type}.
Variable C : Collaborators Detail ExtErr.

(** X13.  However the units are scheduled and whatever the arguments,
    [GetMergedYamlContent] never returns content together with an error:
    either the error is nil or the content is empty. *)
Theorem X13_no_content_with_error (sched : list nat) (arg : YamlContentRequestArg)
    (paths : list string) :
  snd (GetMergedYamlContent C sched arg paths) = None
  \/ fst (GetMergedYamlContent C sched arg paths) = "".
Proof.
  destruct (snd (GetMergedYamlContent C sched arg paths)) as [e|] eqn:He;
    [right | by left].
  apply GetMergedYamlContent_error_no_content. by rewrite He.
Qed.

Lemma GetMergedYamlContent_failed (sched : list nat) (arg : YamlContentRequestArg)
    (paths : list string) (isOther : bool) :
  ReachesFetches C arg isOther ->
  sched ≡ₚ seq 0 (length paths) ->
  (exists p cause, p ∈ paths /\ fetchOf C arg isOther p = inr cause) ->
  exists errs,
    GetMergedYamlContent C sched arg paths = ("", Some (MultiError errs))
    /\ errs ≡ₚ failuresOf C arg isOther paths.
Proof.
  intros Hreach Hperm (p & cause & Hp & Hfail).
  exists (omap (fun i => paths !! i ≫= failureOf C arg isOther) sched).
  assert (omap (fun i => paths !! i ≫= failureOf C arg isOther) sched
          ≡ₚ failuresOf C arg isOther paths) as Hall.
  { rewrite Hperm. unfold failuresOf. by rewrite omap_lookup_seq. }
  split; [| done].
  rewrite (GetMergedYamlContent_reaches C arg paths isOther sched Hreach). cbn zeta.
  rewrite runUnits_errorList. cbn [errorList app].
  assert (fetchErrorOf C arg isOther p cause
          ∈ omap (fun i => paths !! i ≫= failureOf C arg isOther) sched) as Hin.
  { rewrite Hall. apply list_elem_of_omap. exists p. split; [done |].
    unfold failureOf. by rewrite Hfail. }
  destruct (omap _ sched) as [|e errs]; [by apply elem_of_nil in Hin | done].
Qed.

(** X14.  When some fetch fails, two runs that differ in the order in which
    the units finish both return no content and a multierror, and the two
    multierrors have the same entries, at most in a different order. *)
Theorem X14_failures_up_to_order (sched1 sched2 : list nat)
    (arg : YamlContentRequestArg) (paths : list string) (isOther : bool) :
  ReachesFetches C arg isOther ->
  sched1 ≡ₚ seq 0 (length paths) ->
  sched2 ≡ₚ seq 0 (length paths) ->
  (exists p cause, p ∈ paths /\ fetchOf C arg isOther p = inr cause) ->
  exists errs1 errs2,
    GetMergedYamlContent C sched1 arg paths = ("", Some (MultiError errs1))
    /\ GetMergedYamlContent C sched2 arg paths = ("", Some (MultiError errs2))
    /\ errs1 ≡ₚ errs2.
Proof.
  intros Hreach Hperm1 Hperm2 Hfail.
  destruct (GetMergedYamlContent_failed sched1 arg paths isOther Hreach Hperm1 Hfail)
    as (errs1 & H1 & Hp1).
  destruct (GetMergedYamlContent_failed sched2 arg paths isOther Hreach Hperm2 Hfail)
    as (errs2 & H2 & Hp2).
  exists errs1, errs2. split; [done |]. split; [done |]. by rewrite Hp1, Hp2.
Qed.

(** X15.  [SyncYamlFromSource] reports a change only with a value that
    [yamlutil.Equal] has compared with the current value and found
    different, without failing. *)
Theorem X15_change_means_unequal (yamlData : option (CustomYaml Detail))
    (curValue : string) :
  fst (fst (SyncYamlFromSource C yamlData curValue)) = true ->
  yamlEqual C (snd (fst (SyncYamlFromSource C yamlData curValue))) curValue
  = (false, None).
Proof.
  destruct yamlData as [y|]; [| done]. unfold SyncYamlFromSource.
  destruct (AutoSync y); cbn [negb]; [| done].
  destruct (String.eqb (Source y) (SourceFromVariableSet C)).
  - unfold syncYamlFromVariableSet.
    destruct (negb _); [done |].
    destruct (VariableSetFind C (SourceID y)) as [vs|e]; [| done].
    by destruct (yamlEqual C (VariableYaml vs) curValue) as [[|] [e|]] eqn:Heq.
  - unfold syncYamlFromGit.
    destruct (negb _); [done |].
    destruct (UnMarshalSourceDetail C (SourceDetail y)) as [sd|e]; [| done].
    destruct (GitRepoConfig_ sd) as [rc|]; [| done].
    destruct (DownloadFileFromSource C _) as [valuesYAML|e]; [| done].
    by destruct (yamlEqual C valuesYAML curValue) as [[|] [e|]] eqn:Heq.
Qed.

End Merge.

Example failures_in_finishing_order :
  GetMergedYamlContent
    (* every download fails *)
    {| SourceFromVariableSet := ""; SourceFromGitRepo := ""; SourceFromOther := "other";
       VariableSetFind := fun _ => inr "";
       yamlEqual := fun _ _ => (false, None);
       UnMarshalSourceDetail := fun d : unit => inr "";
       DownloadFileFromSource := fun args => inr ("404 " +:+ ArgPath args);
       GetCodeHost := fun _ => inl {| Type_ := "gitlab" |};
       RunGitCmds := fun _ _ _ _ _ _ => None;
       S3StoragePath := ""; pathJoin := fun a b => a +:+ b;
       ReadFile := fun _ => inr ""; yamlMerge := fun _ => inl "";
       errorText := fun e => e; Sprintf0 := fun f => f |}
    [1; 0] demoArg ["a.yaml"; "b.yaml"]
  = ("", Some (MultiError
                 [Wrapped "404 b.yaml" "failed to download file from git, path b.yaml";
                  Wrapped "404 a.yaml" "failed to download file from git, path a.yaml"])).
Proof. reflexivity. Qed.

Lemma X14_failures_up_to_order_witness :
  exists errs1 errs2,
    GetMergedYamlContent demoCollaborators [1; 0] demoArg ["a.yaml"; "b.yaml"]
    = ("", Some (MultiError errs1))
    /\ GetMergedYamlContent demoCollaborators [0; 1] demoArg ["a.yaml"; "b.yaml"]
       = ("", Some (MultiError errs2))
    /\ errs1 ≡ₚ errs2.
Proof.
  apply (X14_failures_up_to_order demoCollaborators [1; 0] [0; 1] demoArg
           ["a.yaml"; "b.yaml"] false demo_ReachesFetches
           (perm_swap 0 1 []) (Permutation_refl _)).
  exists "b.yaml", "connection reset".
  split; [apply list_elem_of_further, list_elem_of_here | reflexivity].
Defined.

Lemma X15_change_means_unequal_witness :
  yamlEqual demoCollaborators
    (snd (fst (SyncYamlFromSource demoCollaborators
                 (Some {| Source := "variableSet"; AutoSync := true;
                          SourceID := "vs-1"; SourceDetail := None |})
                 "a: 2")))
    "a: 2"
  = (false, None).
Proof.
  exact (X15_change_means_unequal demoCollaborators
           (Some {| Source := "variableSet"; AutoSync := true; SourceID := "vs-1";
                    SourceDetail := None |}) "a: 2" eq_refl).
Defined.

End RenderSetExtra.

Module DefaultValuesExtra.
Import RenderSet DefaultValues.

Section Values.
Context {Detail ExtErr : Type}.
Variable C : Collaborators Detail ExtErr.

(** X16.  [GetDefaultValues] returns a response or an error, never both
    and never neither; the error of [FillGitNamespace] is never returned:
    an error is made by the function itself or comes from
    [FindRenderSet]; and a product or a render set that does not exist
    gives the empty response. *)
Theorem X16_GetDefaultValues_result (productName envName : string) :
  let result := GetDefaultValues C productName envName in
  (fst result = None <-> is_Some (snd result)) /\
  (forall e, snd result = Some (External e) ->
             exists opt, FindRenderSet C opt = inr e) /\
  (forall resp, fst result = Some resp ->
     (exists rendersetObj opt,
        FindRenderSet C opt = inl (Some rendersetObj) /\
        OptProductTmpl opt = productName /\
        DefaultVariable resp = DefaultValues rendersetObj /\
        RespYamlData resp = fst (FillGitNamespace C (YamlData rendersetObj)))
     \/ resp = {| DefaultVariable := ""; RespYamlData := None |}).
Proof.
  cbn zeta. unfold GetDefaultValues.
  destruct (ProductFind C productName envName) as [productInfo|err].
  - destruct (Render productInfo) as [render|].
    + match goal with |- context [FindRenderSet C ?o] =>
        set (opt := o); destruct (FindRenderSet C opt) as [[obj|]|err] eqn:Hfind end.
      * destruct (FillGitNamespace C (YamlData obj)) as [yamlData fillErr] eqn:Hfill.
        cbn [fst snd]. split; [split; [done | by intros [? ?]] |].
        split; [done |]. intros resp [= <-]. left. exists obj, opt.
        cbn. by rewrite Hfill.
      * cbn [fst snd]. split; [split; [done | by intros [? ?]] |].
        split; [done |]. intros resp [= <-]. by right.
      * cbn [fst snd]. split; [split; [by eexists | done] |].
        split; [| done]. intros e [= <-]. by exists opt.
    + cbn [fst snd]. split; [split; [by eexists | done] |]. by split.
  - destruct (isErrNoDocuments C err); cbn [fst snd].
    + split; [split; [done | by intros [? ?]] |].
      split; [done |]. intros resp [= <-]. by right.
    + split; [split; [by eexists | done] |]. by split.
Qed.

End Values.

Lemma X16_GetDefaultValues_result_witness :
  let resp : DefaultValuesResp unit :=
    {| DefaultVariable := "replicas: 2"; RespYamlData := None |} in
  (exists rendersetObj opt,
     FindRenderSet demoValues opt = inl (Some rendersetObj) /\
     OptProductTmpl opt = "zadig" /\
     DefaultVariable resp = DefaultValues rendersetObj /\
     RespYamlData resp = fst (FillGitNamespace demoValues (YamlData rendersetObj)))
  \/ resp = {| DefaultVariable := ""; RespYamlData := None |}.
Proof.
  exact (proj2 (proj2 (X16_GetDefaultValues_result demoValues "zadig" "dev")) _ eq_refl).
Defined.

End DefaultValuesExtra.

(** ** The dashboard service *)

Module DashboardExtra.
Import GoStrings GoStringsFacts GoStringsMore GoStringsMoreFacts Dashboard.

(** *** [intersect] *)

Lemma elem_of_List (S : gset string) (x : string) : x ∈ List S <-> x ∈ S.
Proof. unfold List. by rewrite merge_sort_Permutation, elem_of_elements. Qed.

Lemma elem_of_fold_Intersection (rest : list (list string)) (S0 : gset string)
    (x : string) :
  x ∈ fold_left (fun tmp v => Intersection (NewString v) tmp) rest S0
  <-> x ∈ S0 /\ forall l, l ∈ rest -> x ∈ l.
Proof.
  revert S0. induction rest as [|v rest IH]; intros S0; cbn [fold_left].
  - split; [intros H; split; [done |] | tauto].
    intros l Hl. by apply elem_of_nil in Hl.
  - rewrite IH. unfold Intersection, NewString.
    rewrite elem_of_intersection, elem_of_list_to_set. split.
    + intros [[Hv H0] Hrest]. split; [done |].
      intros l [-> | Hl]%elem_of_cons; [done | by apply Hrest].
    + intros [H0 Hall]. split; [split; [| done] |].
      * apply Hall, list_elem_of_here.
      * intros l Hl. by apply Hall, list_elem_of_further.
Qed.

Lemma elem_of_intersect (s : list (list string)) (x : string) :
  x ∈ intersect s <-> s <> [] /\ forall l, l ∈ s -> x ∈ l.
Proof.
  destruct s as [|s0 rest]; cbn [intersect].
  - split; [by intros H%elem_of_nil | by intros [? _]].
  - rewrite elem_of_List, elem_of_fold_Intersection. unfold NewString.
    rewrite elem_of_list_to_set. split.
    + intros [H0 Hrest]. split; [done |].
      intros l [-> | Hl]%elem_of_cons; [done | by apply Hrest].
    + intros [_ Hall]. split; [apply Hall, list_elem_of_here |].
      intros l Hl. by apply Hall, list_elem_of_further.
Qed.

Lemma List_sorted (S : gset string) :
  StronglySorted String.le (List S) /\ NoDup (List S).
Proof.
  unfold List. split.
  - apply (StronglySorted_merge_sort String.le).
  - rewrite merge_sort_Permutation. apply NoDup_elements.
Qed.

Lemma intersect_sorted (s : list (list string)) :
  StronglySorted String.le (intersect s) /\ NoDup (intersect s).
Proof.
  destruct s as [|s0 rest]; cbn [intersect]; [| apply List_sorted].
  split; constructor.
Qed.

Lemma intersect_ext (s1 s2 : list (list string)) :
  (forall x, x ∈ intersect s1 <-> x ∈ intersect s2) -> intersect s1 = intersect s2.
Proof.
  intros Hext.
  apply (StronglySorted_unique String.le); try apply intersect_sorted.
  apply NoDup_Permutation; try apply intersect_sorted. exact Hext.
Qed.

(** X17.  A string is in the result of [intersect] exactly when there is
    at least one list and the string is in every list. *)
Theorem X17_intersect_members (s : list (list string)) (x : string) :
  x ∈ intersect s <-> s <> [] /\ forall l, l ∈ s -> x ∈ l.
Proof. apply elem_of_intersect. Qed.

(** X18.  The result of [intersect] is in ascending order and has no
    string twice. *)
Theorem X18_intersect_sorted (s : list (list string)) :
  StronglySorted String.le (intersect s) /\ NoDup (intersect s).
Proof. apply intersect_sorted. Qed.

(** X19.  The result of [intersect] depends neither on the order of the
    lists nor on the order or the repetitions of the strings in a list. *)
Theorem X19_intersect_order_free (s1 s2 : list (list string)) :
  (s1 ≡ₚ s2 -> intersect s1 = intersect s2) /\
  (Forall2 (fun l1 l2 => forall x, x ∈ l1 <-> x ∈ l2) s1 s2 ->
   intersect s1 = intersect s2).
Proof.
  split; intros H; apply intersect_ext; intros x; rewrite !elem_of_intersect.
  - split; intros [Hne Hall]; split.
    + intros ->. by apply Permutation_nil_r in H.
    + intros l Hl. apply Hall. by rewrite H.
    + intros ->. by apply Permutation_nil_l in H.
    + intros l Hl. apply Hall. by rewrite <- H.
  - split; intros [Hne Hall]; split.
    + intros ->. by apply Forall2_nil_inv_r in H.
    + intros l2 Hl2. apply list_elem_of_lookup in Hl2 as [i Hi].
      destruct (Forall2_lookup_r _ _ _ _ _ H Hi) as (l1 & Hl1 & Hx).
      apply Hx, Hall. by eapply list_elem_of_lookup_2.
    + intros ->. by apply Forall2_nil_inv_l in H.
    + intros l1 Hl1. apply list_elem_of_lookup in Hl1 as [i Hi].
      destruct (Forall2_lookup_l _ _ _ _ _ H Hi) as (l2 & Hl2 & Hx).
      apply Hx, Hall. by eapply list_elem_of_lookup_2.
Qed.

Example intersect_example :
  intersect [["b"; "a"; "c"; "b"]; ["c"; "d"; "b"]] = ["b"; "c"].
Proof. vm_compute. reflexivity. Qed.

Lemma X19_intersect_order_free_witness :
  intersect [["b"; "a"]; ["a"; "c"]] = intersect [["a"; "c"]; ["b"; "a"]]
  /\ intersect [["b"; "a"]] = intersect [["a"; "b"; "a"]].
Proof.
  split.
  - apply (proj1 (X19_intersect_order_free _ _)). apply perm_swap.
  - apply (proj2 (X19_intersect_order_free _ _)).
    constructor; [| constructor]. intros x.
    rewrite !elem_of_cons, !elem_of_nil. tauto.
Defined.

(** *** [generateOPAInput] *)

Lemma Trim_cons (c : ascii) (e cutset : string) :
  inCutset c cutset = true -> Trim (String c e) cutset = Trim e cutset.
Proof.
  intros H. unfold Trim. cbn [TrimRight].
  destruct (TrimRight e cutset) as [|d t]; rewrite ?H; cbn [TrimLeft]; by rewrite ?H.
Qed.

Lemma TrimRight_snoc (c : ascii) (e cutset : string) :
  inCutset c cutset = true ->
  TrimRight (e +:+ String c "") cutset = TrimRight e cutset.
Proof.
  intros H. induction e as [|x e IH].
  - rewrite app_nil_l. cbn [TrimRight]. by rewrite H.
  - rewrite app_cons. cbn [TrimRight]. by rewrite IH.
Qed.

Section OPA.
Context {Header : Type}.
Variable HeaderGet : Header -> string -> string.
Variable ToLower : string -> string.
Variable AuthorizationHeader : string.

(** X20.  The parsed path of the input is the list of the segments of the
    endpoint: no segment has a slash in it; the segments joined by slashes
    are the endpoint without the slashes at its two ends; and a slash more
    at either end of the endpoint changes nothing in the input. *)
Theorem X20_parsed_path_segments (header : Header) (method endpoint : string) :
  let input := generateOPAInput HeaderGet ToLower AuthorizationHeader
                 header method endpoint in
  Forall (fun segment => ~ Occurs "/" segment) (ParsedPath input) /\
  Join (ParsedPath input) "/" = Trim endpoint "/" /\
  generateOPAInput HeaderGet ToLower AuthorizationHeader header method
    ("/" +:+ endpoint) = input /\
  generateOPAInput HeaderGet ToLower AuthorizationHeader header method
    (endpoint +:+ "/") = input.
Proof.
  cbn zeta. unfold generateOPAInput. cbn [ParsedPath].
  split; [apply RedactorExtra.Split_byte_pieces |].
  split; [apply RedactorExtra.Join_Split_byte |].
  split.
  - rewrite app_cons, app_nil_l. by rewrite Trim_cons.
  - unfold Trim. by rewrite TrimRight_snoc.
Qed.

End OPA.

Example generateOPAInput_path :
  ParsedPath (generateOPAInput (fun (h : gmap string string) k => default "" (h !! k))
                (fun k => k) "authorization" ∅ "GET" "/api/aslan/workflow/")
  = ["api"; "aslan"; "workflow"].
Proof. reflexivity. Qed.

(** *** The dashboard configuration, and [GetMyWorkflow] *)

Lemma filter_sublist {A : Type} (f : A -> bool) (l : list A) :
  List.filter f l `sublist_of` l.
Proof.
  induction l as [|x l IH]; cbn [List.filter]; [constructor |].
  destruct (f x); by constructor.
Qed.

Section Service.
Context {Cfg ExtErr Store Header : Type}.
Variable C : Collaborators Cfg ExtErr Store Header.

(** X21.  What is saved is what is read: when the store, asked for the
    user, gives back the record that
    [CreateOrUpdateDashboardConfiguration] handed to it for a
    configuration, [GetDashboardConfiguration] returns that
    configuration. *)
Theorem X21_dashboard_round_trip (username userID : string)
    (config : DashBoardConfig Cfg) (st st' : Store) :
  CreateOrUpdateDashboardConfiguration C username userID config st
  = CreateOrUpdate C (storedModel username userID config) st
  /\ (GetByUser C username userID st' = inl (storedModel username userID config) ->
      GetDashboardConfiguration C username userID st' = inl config).
Proof.
  split; [reflexivity |]. intros Hget. unfold GetDashboardConfiguration.
  rewrite Hget. destruct config as [cards]. cbn [storedModel ModelCards Cards].
  f_equal. f_equal. clear Hget.
  induction cards as [|[i n t c] cards IH]; [done |].
  cbn [map ID Name Type_ Config CardID CardName CardType CardConfig_].
  by rewrite IH.
Qed.

Lemma targets_fold (items : list WorkflowConfigItem) (m : gmap string Z)
    (key : string) :
  is_Some (fold_left
             (fun m item => <[workflowKey (ItemProject item) (ItemName item) := 1%Z]> m)
             items m !! key)
  <-> is_Some (m !! key)
      \/ exists item, item ∈ items
                      /\ key = workflowKey (ItemProject item) (ItemName item).
Proof.
  revert m. induction items as [|item items IH]; intros m; cbn [fold_left].
  - split; [by left |]. intros [H | (item & Hin & _)]; [done |].
    by apply elem_of_nil in Hin.
  - rewrite IH, lookup_insert_is_Some. split.
    + intros [[<- | [_ H]] | (item' & Hin & ->)].
      * right. exists item. split; [apply list_elem_of_here | done].
      * by left.
      * right. exists item'. split; [by apply list_elem_of_further | done].
    + intros [H | (item' & [-> | Hin]%elem_of_cons & ->)].
      * left. destruct (decide (workflowKey (ItemProject item) (ItemName item) = key));
          [by left | by right].
      * left. by left.
      * right. by exists item'.
Qed.

Lemma collectTargets_spec (cards : list (CardConfig Cfg)) (cardID : string)
    (m m' : gmap string Z) :
  collectTargets C cards cardID m = inl m' ->
  forall key, is_Some (m' !! key)
              <-> is_Some (m !! key) \/ Configured C cards cardID key.
Proof.
  revert m. induction cards as [|card cards IH]; intros m; cbn [collectTargets].
  - intros [= <-] key. split; [by left |].
    intros [H | (c & _ & _ & _ & Hin & _)]; [done | by apply elem_of_nil in Hin].
  - destruct (String.eqb_spec (CardType card) CardTypeMyWorkflow) as [Hty|Hty];
      [destruct (String.eqb_spec (CardID card) cardID) as [Hid|Hid] |];
      cbn [andb].
    + destruct (CardConfig_ card) as [config|] eqn:Hcfg; [| done].
      destruct (IToi C config) as [items|e] eqn:Hitems; [| done].
      intros Hrest key. rewrite (IH _ Hrest key), targets_fold. split.
      * intros [[H | (item & Hin & ->)] | (c & cf & wl & it & Hc & Hrest')].
        -- by left.
        -- right. exists card, config, items, item.
           split; [apply list_elem_of_here | done].
        -- right. exists c, cf, wl, it.
           split; [by apply list_elem_of_further | done].
      * intros [H | (c & cf & wl & it & [-> | Hc]%elem_of_cons & H1 & H2 & H3 & H4 & H5 & H6)].
        -- by left; left.
        -- left. right. rewrite Hcfg in H3. injection H3 as <-.
           rewrite Hitems in H4. injection H4 as <-. by exists it.
        -- right. by exists c, cf, wl, it.
    + intros Hrest key. rewrite (IH _ Hrest key). split.
      * intros [H | (c & cf & wl & it & Hc & Hrest')]; [by left |].
        right. exists c, cf, wl, it. split; [by apply list_elem_of_further | done].
      * intros [H | (c & cf & wl & it & [-> | Hc]%elem_of_cons & H1 & H2 & Htail)];
          [by left | congruence |].
        right. by exists c, cf, wl, it.
    + intros Hrest key. rewrite (IH _ Hrest key). split.
      * intros [H | (c & cf & wl & it & Hc & Hrest')]; [by left |].
        right. exists c, cf, wl, it. split; [by apply list_elem_of_further | done].
      * intros [H | (c & cf & wl & it & [-> | Hc]%elem_of_cons & H1 & Htail)];
          [by left | congruence |].
        right. by exists c, cf, wl, it.
Qed.

(** X22.  When [GetMyWorkflow] returns a response, the response is empty,
    or it is made, in their order, of those workflows that
    [ListAllAvailableWorkflows] has listed for the projects allowed to the
    user whose key [project-name] is the key of an item configured in a
    [my_workflow] card with the given ID: nothing else is shown, and none
    of those is left out. *)
Theorem X22_GetMyWorkflow_shows (header : Header) (username userID cardID : string)
    (st : Store) (resp : list WorkflowResponse) :
  GetMyWorkflow C header username userID cardID st = inl resp ->
  resp = [] \/
  exists cfg allowedProjects workflowList shown,
    GetByUser C username userID st = inl cfg /\
    Evaluate C "rbac.user_allowed_projects"
      (generateOPAInput (HeaderGet C) (ToLower C) (AuthorizationHeader C)
         header "/api/aslan/workflow/workflow" "GET") = inl allowedProjects /\
    ListAllAvailableWorkflows C (intersect [allowedProjects]) = inl workflowList /\
    resp = map (responseOf C) shown /\
    shown `sublist_of` workflowList /\
    forall w, w ∈ shown <->
              w ∈ workflowList /\
              Configured C (ModelCards cfg) cardID
                (workflowKey (WfProjectName w) (WfName w)).
Proof.
  unfold GetMyWorkflow.
  destruct (GetByUser C username userID st) as [cfg|e] eqn:Hcfg.
  2:{ destruct (negb _); [done |]. intros [= <-]. by left. }
  destruct (Evaluate C _ _) as [allowed|e] eqn:Hopa; [| done].
  destruct (ListAllAvailableWorkflows C _) as [wfs|e] eqn:Hlist; [| done].
  destruct (collectTargets C (ModelCards cfg) cardID ∅) as [targets|[out|e]] eqn:Htargets.
  - intros [= <-]. right. eexists cfg, allowed, wfs, _.
    split; [done |]. split; [done |]. split; [done |]. split; [reflexivity |].
    split; [apply filter_sublist |].
    intros w. rewrite list_elem_of_In, filter_In, <- list_elem_of_In.
    rewrite bool_decide_eq_true, (collectTargets_spec _ _ _ _ Htargets).
    rewrite lookup_empty. split; intros [Hw H]; (split; [done |]).
    + destruct H as [[? H] | H]; done.
    + by right.
  - intros [= <-]. left. clear -Htargets.
    revert Htargets. generalize (∅ : gmap string Z).
    induction (ModelCards cfg) as [|card cards IH]; intros m; cbn [collectTargets];
      [done |].
    destruct (_ && _); [| apply IH].
    destruct (CardConfig_ card); [| by intros [= <-]].
    destruct (IToi C c); [apply IH | done].
  - intros H. exfalso. clear -Htargets H.
    revert Htargets. generalize (∅ : gmap string Z).
    induction (ModelCards cfg) as [|card cards IH]; intros m; cbn [collectTargets];
      [done |].
    destruct (_ && _); [| apply IH].
    destruct (CardConfig_ card); [| done].
    destruct (IToi C c); [apply IH | done].
Qed.

End Service.

(** The key is the pair written with a dash: the card configured for
    the workflow [c] of the project [a-b] shows the workflow [b-c] of the
    project [a]. *)
Example GetMyWorkflow_key_collision :
  GetMyWorkflow demoDashboard ∅ "alice" "u1" "card-1"
    {[ "u1" := storedModel "alice" "u1" demoConfig ]}
  = inl [ {| RespName := "b-c"; RespProject := "a"; RespCreator := "admin";
             RespStartTime := 0; RespStatus := "passed"; RespDisplayName := "b-c";
             RespType := "common_workflow" |};
          {| RespName := "build"; RespProject := "zadig"; RespCreator := "admin";
             RespStartTime := 0; RespStatus := "passed"; RespDisplayName := "Build";
             RespType := "common_workflow" |} ].
Proof. vm_compute. reflexivity. Qed.

Lemma X21_dashboard_round_trip_witness :
  GetDashboardConfiguration demoDashboard "alice" "u1"
    {[ "u1" := storedModel "alice" "u1" demoConfig ]}
  = inl demoConfig.
Proof.
  apply (proj2 (X21_dashboard_round_trip demoDashboard "alice" "u1" demoConfig
                  ∅ {[ "u1" := storedModel "alice" "u1" demoConfig ]})).
  vm_compute. reflexivity.
Defined.

Lemma X22_GetMyWorkflow_shows_witness :
  exists resp,
    GetMyWorkflow demoDashboard ∅ "alice" "u1" "card-1"
      {[ "u1" := storedModel "alice" "u1" demoConfig ]} = inl resp
    /\ (resp = [] \/
        exists cfg allowedProjects workflowList shown,
          GetByUser demoDashboard "alice" "u1"
            {[ "u1" := storedModel "alice" "u1" demoConfig ]} = inl cfg /\
          Evaluate demoDashboard "rbac.user_allowed_projects"
            (generateOPAInput (HeaderGet demoDashboard) (ToLower demoDashboard)
               (AuthorizationHeader demoDashboard) ∅
               "/api/aslan/workflow/workflow" "GET") = inl allowedProjects /\
          ListAllAvailableWorkflows demoDashboard (intersect [allowedProjects])
          = inl workflowList /\
          resp = map (responseOf demoDashboard) shown /\
          shown `sublist_of` workflowList /\
          forall w, w ∈ shown <->
                    w ∈ workflowList /\
                    Configured demoDashboard (ModelCards cfg) "card-1"
                      (workflowKey (WfProjectName w) (WfName w))).
Proof.
  eexists. split; [exact GetMyWorkflow_key_collision |].
  exact (X22_GetMyWorkflow_shows demoDashboard ∅ "alice" "u1" "card-1" _ _
           GetMyWorkflow_key_collision).
Defined.

End DashboardExtra.
